(** * orders-demo: the order service (cmd/ordersvc)

    A shallow embedding of the order service: the validator
    [minimalValidateOrder], the store ([newStore], [LoadCache], [Upsert],
    [Get]), the two HTTP handlers and the per-message handler that [main]
    subscribes to the channel, with the parts of encoding/json, strings and
    net/http they call.

    Go strings and byte slices are Rocq strings (sequences of 8-bit
    characters); maps are stdpp's [gmap]. *)

From Stdlib Require Import Ascii String ZArith NArith.
From stdpp Require Import gmap strings list.

Set Warnings "-register-all,-clear-no-such-hyp".

Local Open Scope string_scope.
Local Open Scope list_scope.

(** Go's [error] values met in the service.  [errorString] is what
    [errors.New] builds; [UnmarshalTypeError] is the one error
    [json.Unmarshal] reports on well-formed input ([Value] is the kind of JSON
    value met, [Type] the Go type it was to be stored in). *)
Inductive error : Type :=
| errorString (msg : string)
| SyntaxError
| UnmarshalTypeError (Value : string) (Type_ : string).

Module utf8.

Local Open Scope N_scope.

Definition byte (n : N) : ascii := ascii_of_N n.

(** [utf8.EncodeRune] on a rune that is no surrogate and at most U+10FFFF. *)
Definition EncodeRune (r : N) : list ascii :=
  if r <? 128 then [byte r]
  else if r <? 2048 then
    [byte (N.lor 192 (N.shiftr r 6)); byte (N.lor 128 (N.land r 63))]
  else if r <? 65536 then
    [byte (N.lor 224 (N.shiftr r 12));
     byte (N.lor 128 (N.land (N.shiftr r 6) 63));
     byte (N.lor 128 (N.land r 63))]
  else
    [byte (N.lor 240 (N.shiftr r 18));
     byte (N.lor 128 (N.land (N.shiftr r 12) 63));
     byte (N.lor 128 (N.land (N.shiftr r 6) 63));
     byte (N.lor 128 (N.land r 63))].

Definition RuneError : N := 65533.

(** Continuation byte of a multi-byte sequence within [lo, hi]. *)
Definition within (lo hi : N) (c : ascii) : bool :=
  (lo <=? N_of_ascii c) && (N_of_ascii c <=? hi).

(** The [first] and [acceptRanges] tables of unicode/utf8: for a leading
    byte, the length of the sequence and the range the second byte must
    lie in; [None] for a byte that cannot start a sequence. *)
Definition first (c : ascii) : option (nat * (N * N)) :=
  let n := N_of_ascii c in
  if n <? 194 then None
  else if n <? 224 then Some (2%nat, (128, 191))
  else if n =? 224 then Some (3%nat, (160, 191))
  else if n =? 237 then Some (3%nat, (128, 159))
  else if n <? 240 then Some (3%nat, (128, 191))
  else if n =? 240 then Some (4%nat, (144, 191))
  else if n <? 244 then Some (4%nat, (128, 191))
  else if n =? 244 then Some (4%nat, (128, 143))
  else None.

End utf8.

Module json.

Local Open Scope char_scope.

(** A JSON document.  A number keeps its literal, which is what the
    decoder hands to [strconv]; a string is held unquoted. *)
Inductive value : Type :=
| Null
| Bool (b : bool)
| Number (lit : string)
| String_ (s : string)
| Array (elems : list value)
| Object (members : list (string * value)).

(** ** Unquoting of string literals ([unquoteBytes]) *)

Definition hexval (c : ascii) : N :=
  let n := N_of_ascii c in
  if ((48 <=? n) && (n <=? 57))%N then (n - 48)%N
  else if ((97 <=? n) && (n <=? 102))%N then (n - 87)%N
  else (n - 55)%N.

Definition getu4 (a b c d : ascii) : N :=
  (hexval a * 4096 + hexval b * 256 + hexval c * 16 + hexval d)%N.

Definition IsSurrogate (r : N) : bool := ((55296 <=? r) && (r <? 57344))%N.

(** [utf16.DecodeRune]: the rune of a surrogate pair, if it is one. *)
Definition utf16_DecodeRune (r1 r2 : N) : option N :=
  if ((55296 <=? r1) && (r1 <? 56320) && (56320 <=? r2) && (r2 <? 57344))%N
  then Some (N.shiftl (r1 - 55296) 10 + (r2 - 56320) + 65536)%N
  else None.

Definition escaped (c : ascii) : ascii :=
  match c with
  | "b" => "008" | "f" => "012" | "n" => "010" | "r" => "013" | "t" => "009"
  | _ => c
  end.

Definition replacement : list ascii := utf8.EncodeRune utf8.RuneError.

(** The text between the quotes of a literal the scanner accepted, turned
    into the string it denotes: escapes are decoded, a surrogate that has
    no partner becomes U+FFFD, and so does every byte that is not part
    of a well-formed UTF-8 sequence. *)
Fixpoint unquote (s : list ascii) : list ascii :=
  match s with
  | [] => []
  | "\" :: "u" :: a :: b :: c :: d :: rest =>
      let rr := getu4 a b c d in
      if IsSurrogate rr then
        match rest with
        | "\" :: "u" :: a' :: b' :: c' :: d' :: rest' =>
            match utf16_DecodeRune rr (getu4 a' b' c' d') with
            | Some dec => utf8.EncodeRune dec ++ unquote rest'
            | None => replacement ++ unquote rest
            end
        | _ => replacement ++ unquote rest
        end
      else utf8.EncodeRune rr ++ unquote rest
  | "\" :: e :: rest => escaped e :: unquote rest
  | c :: rest =>
      if (N_of_ascii c <? 128)%N then c :: unquote rest
      else
        match utf8.first c with
        | None => replacement ++ unquote rest
        | Some (2%nat, (lo, hi)) =>
            match rest with
            | b1 :: r1 =>
                if utf8.within lo hi b1 then c :: b1 :: unquote r1
                else replacement ++ unquote rest
            | _ => replacement ++ unquote rest
            end
        | Some (3%nat, (lo, hi)) =>
            match rest with
            | b1 :: b2 :: r2 =>
                if utf8.within lo hi b1 && utf8.within 128 191 b2
                then c :: b1 :: b2 :: unquote r2
                else replacement ++ unquote rest
            | _ => replacement ++ unquote rest
            end
        | Some (_, (lo, hi)) =>
            match rest with
            | b1 :: b2 :: b3 :: r3 =>
                if utf8.within lo hi b1 && utf8.within 128 191 b2
                   && utf8.within 128 191 b3
                then c :: b1 :: b2 :: b3 :: unquote r3
                else replacement ++ unquote rest
            | _ => replacement ++ unquote rest
            end
        end
  end.

(** ** The scanner (scanner.go)

    The scanner reads one byte at a time.  [step] is the state function
    Go keeps in [scanner.step]; the literal being read travels with it,
    most recent byte first.  [parseState] is the stack of open arrays and
    objects, each with what it holds so far (most recent first); an
    object that has read a key and waits for its value holds the key. *)

Inductive step : Type :=
| stateBeginValue
| stateBeginValueOrEmpty
| stateBeginStringOrEmpty
| stateBeginString
| stateEndValue
| stateEndTop
| stateInString (acc : list ascii)
| stateInStringEsc (acc : list ascii)
| stateInStringEscU (todo : nat) (acc : list ascii)
| stateNeg (acc : list ascii)
| state0 (acc : list ascii)
| state1 (acc : list ascii)
| stateDot (acc : list ascii)
| stateDot0 (acc : list ascii)
| stateE (acc : list ascii)
| stateESign (acc : list ascii)
| stateE0 (acc : list ascii)
| stateLit (todo : list ascii) (v : value).

Inductive frame : Type :=
| parseArrayValue (done : list value)
| parseObject (done : list (string * value)) (key : option string).

Record scanner : Type := mkScanner {
  sc_step : step;
  parseState : list frame;
  top : option value
}.

Definition maxNestingDepth : N := 10000.

Definition isSpace (c : ascii) : bool :=
  match c with
  | " " | "009" | "013" | "010" => true
  | _ => false
  end.

Definition isDigit (c : ascii) : bool :=
  ((48 <=? N_of_ascii c) && (N_of_ascii c <=? 57))%N.

Definition isHex (c : ascii) : bool :=
  let n := N_of_ascii c in
  (isDigit c || ((97 <=? n) && (n <=? 102)) || ((65 <=? n) && (n <=? 70)))%N.

Definition reset : scanner := mkScanner stateBeginValue [] None.

(** A value is complete: it goes into the innermost open array or object,
    or is the document. *)
Definition complete (v : value) (ps : list frame) (t : option value)
  : option scanner :=
  match ps with
  | [] => Some (mkScanner stateEndValue [] (Some v))
  | parseArrayValue done :: ps' =>
      Some (mkScanner stateEndValue (parseArrayValue (v :: done) :: ps') t)
  | parseObject done None :: ps' =>
      match v with
      | String_ k =>
          Some (mkScanner stateEndValue (parseObject done (Some k) :: ps') t)
      | _ => None
      end
  | parseObject done (Some k) :: ps' =>
      Some (mkScanner stateEndValue (parseObject ((k, v) :: done) None :: ps') t)
  end.

Definition pushParseState (f : frame) (next : step) (ps : list frame)
    (t : option value) : option scanner :=
  if (N.of_nat (length (f :: ps)) <=? maxNestingDepth)%N
  then Some (mkScanner next (f :: ps) t)
  else None.

(** [popParseState]: the innermost array or object is closed and is itself
    a complete value. *)
Definition popParseState (v : value) (ps : list frame) (t : option value)
  : option scanner :=
  match complete v ps t with
  | Some s =>
      Some (mkScanner (match ps with [] => stateEndTop | _ => stateEndValue end)
                      (parseState s) (top s))
  | None => None
  end.

Definition string_lit (acc : list ascii) : value :=
  String_ (string_of_list_ascii (unquote (rev acc))).

Definition number_lit (acc : list ascii) : value :=
  Number (string_of_list_ascii (rev acc)).

Definition do_stateEndTop (ps : list frame) (t : option value) (c : ascii)
  : option scanner :=
  if isSpace c then Some (mkScanner stateEndTop ps t) else None.

Definition do_stateEndValue (ps : list frame) (t : option value) (c : ascii)
  : option scanner :=
  match ps with
  | [] => do_stateEndTop ps t c
  | f :: ps' =>
      if isSpace c then Some (mkScanner stateEndValue ps t)
      else
        match f with
        | parseObject done (Some k) =>
            if decide (c = ":") then Some (mkScanner stateBeginValue ps t)
            else None
        | parseObject done None =>
            if decide (c = ",") then Some (mkScanner stateBeginString ps t)
            else if decide (c = "}") then popParseState (Object (rev done)) ps' t
            else None
        | parseArrayValue done =>
            if decide (c = ",") then Some (mkScanner stateBeginValue ps t)
            else if decide (c = "]") then popParseState (Array (rev done)) ps' t
            else None
        end
  end.

(** A number ends at the first byte that cannot continue it; that byte is
    then read in [stateEndValue]. *)
Definition end_number (acc : list ascii) (ps : list frame) (t : option value)
    (c : ascii) : option scanner :=
  match complete (number_lit acc) ps t with
  | Some s => do_stateEndValue (parseState s) (top s) c
  | None => None
  end.

Definition do_stateBeginValue (ps : list frame) (t : option value) (c : ascii)
  : option scanner :=
  if isSpace c then Some (mkScanner stateBeginValue ps t)
  else
    match c with
    | "{" => pushParseState (parseObject [] None) stateBeginStringOrEmpty ps t
    | "[" => pushParseState (parseArrayValue []) stateBeginValueOrEmpty ps t
    | "034" => Some (mkScanner (stateInString []) ps t)
    | "-" => Some (mkScanner (stateNeg [c]) ps t)
    | "0" => Some (mkScanner (state0 [c]) ps t)
    | "t" => Some (mkScanner (stateLit ["r"; "u"; "e"] (Bool true)) ps t)
    | "f" => Some (mkScanner (stateLit ["a"; "l"; "s"; "e"] (Bool false)) ps t)
    | "n" => Some (mkScanner (stateLit ["u"; "l"; "l"] Null) ps t)
    | _ => if isDigit c then Some (mkScanner (state1 [c]) ps t) else None
    end.

Definition do_stateBeginString (ps : list frame) (t : option value) (c : ascii)
  : option scanner :=
  if isSpace c then Some (mkScanner stateBeginString ps t)
  else if decide (c = "034") then Some (mkScanner (stateInString []) ps t)
  else None.

Definition do_state0 (acc : list ascii) (ps : list frame) (t : option value)
    (c : ascii) : option scanner :=
  match c with
  | "." => Some (mkScanner (stateDot (c :: acc)) ps t)
  | "e" | "E" => Some (mkScanner (stateE (c :: acc)) ps t)
  | _ => end_number acc ps t c
  end.

Definition do_stateESign (acc : list ascii) (ps : list frame)
    (t : option value) (c : ascii) : option scanner :=
  if isDigit c then Some (mkScanner (stateE0 (c :: acc)) ps t) else None.

(** One call of [s.step(s, c)]; [None] is [scanError]. *)
Definition scan (s : scanner) (c : ascii) : option scanner :=
  let ps := parseState s in
  let t := top s in
  match sc_step s with
  | stateBeginValue => do_stateBeginValue ps t c
  | stateBeginValueOrEmpty =>
      if isSpace c then Some s
      else if decide (c = "]") then do_stateEndValue ps t c
      else do_stateBeginValue ps t c
  | stateBeginStringOrEmpty =>
      if isSpace c then Some s
      else if decide (c = "}") then do_stateEndValue ps t c
      else do_stateBeginString ps t c
  | stateBeginString => do_stateBeginString ps t c
  | stateEndValue => do_stateEndValue ps t c
  | stateEndTop => do_stateEndTop ps t c
  | stateInString acc =>
      if decide (c = "034") then complete (string_lit acc) ps t
      else if decide (c = "\") then Some (mkScanner (stateInStringEsc (c :: acc)) ps t)
      else if (N_of_ascii c <? 32)%N then None
      else Some (mkScanner (stateInString (c :: acc)) ps t)
  | stateInStringEsc acc =>
      match c with
      | "b" | "f" | "n" | "r" | "t" | "\" | "/" | "034" =>
          Some (mkScanner (stateInString (c :: acc)) ps t)
      | "u" => Some (mkScanner (stateInStringEscU 4 (c :: acc)) ps t)
      | _ => None
      end
  | stateInStringEscU todo acc =>
      if isHex c then
        match todo with
        | S (S n) => Some (mkScanner (stateInStringEscU (S n) (c :: acc)) ps t)
        | _ => Some (mkScanner (stateInString (c :: acc)) ps t)
        end
      else None
  | stateNeg acc =>
      if decide (c = "0") then Some (mkScanner (state0 (c :: acc)) ps t)
      else if isDigit c then Some (mkScanner (state1 (c :: acc)) ps t)
      else None
  | state1 acc =>
      if isDigit c then Some (mkScanner (state1 (c :: acc)) ps t)
      else do_state0 acc ps t c
  | state0 acc => do_state0 acc ps t c
  | stateDot acc =>
      if isDigit c then Some (mkScanner (stateDot0 (c :: acc)) ps t) else None
  | stateDot0 acc =>
      if isDigit c then Some (mkScanner (stateDot0 (c :: acc)) ps t)
      else if bool_decide (c = "e") || bool_decide (c = "E")
      then Some (mkScanner (stateE (c :: acc)) ps t)
      else end_number acc ps t c
  | stateE acc =>
      if bool_decide (c = "+") || bool_decide (c = "-")
      then Some (mkScanner (stateESign (c :: acc)) ps t)
      else do_stateESign acc ps t c
  | stateESign acc => do_stateESign acc ps t c
  | stateE0 acc =>
      if isDigit c then Some (mkScanner (stateE0 (c :: acc)) ps t)
      else end_number acc ps t c
  | stateLit todo v =>
      match todo with
      | [] => None
      | [x] => if decide (c = x) then complete v ps t else None
      | x :: todo' =>
          if decide (c = x) then Some (mkScanner (stateLit todo' v) ps t)
          else None
      end
  end.

Fixpoint scan_all (s : scanner) (data : list ascii) : option scanner :=
  match data with
  | [] => Some s
  | c :: data' =>
      match scan s c with
      | Some s' => scan_all s' data'
      | None => None
      end
  end.

Definition endTop (s : scanner) : bool :=
  match sc_step s with stateEndTop => true | _ => false end.

(** [scanner.eof]: at the end of the input a space is read unless the
    document is already complete; the document is then the value, or the
    input is no JSON. *)
Definition eof (s : scanner) : option value :=
  if endTop s then top s
  else
    match scan s " " with
    | Some s' => if endTop s' then top s' else None
    | None => None
    end.

(** [checkValid] together with the value the decoder will walk. *)
Definition parse (data : string) : option value :=
  match scan_all reset (list_ascii_of_string data) with
  | Some s => eof s
  | None => None
  end.

Definition Valid (data : string) : bool :=
  match parse data with Some _ => true | None => false end.

(** ** The decoder (decode.go), for the kinds of Go value the service
    decodes into

    A decoder stores a JSON value into a Go value that already exists and
    reports the type error it met, if any.  [Unmarshal] goes on after a
    type error, leaves the value it could not store into as it was, and
    returns the earliest error in the end. *)

Definition decoder (A : Type) : Type := value -> A -> A * option error.

Definition saveError (saved e : option error) : option error :=
  match saved with Some _ => saved | None => e end.

Definition kind (j : value) : string :=
  match j with
  | Null => "null" | Bool _ => "bool" | Number _ => "number"
  | String_ _ => "string" | Array _ => "array" | Object _ => "object"
  end.

Definition decode_string : decoder string := fun j cur =>
  match j with
  | String_ s => (s, None)
  | Null => (cur, None)
  | _ => (cur, Some (UnmarshalTypeError (kind j) "string"))
  end.

Fixpoint digits (s : list ascii) (acc : Z) : option Z :=
  match s with
  | [] => Some acc
  | c :: s' =>
      if isDigit c then digits s' (acc * 10 + (Z.of_N (N_of_ascii c) - 48))%Z
      else None
  end.

(** [strconv.ParseInt(s, 10, 64)]. *)
Definition ParseInt (s : string) : option Z :=
  let within (neg : bool) (ds : list ascii) : option Z :=
    match ds with
    | [] => None
    | _ =>
        match digits ds 0 with
        | Some n =>
            if neg then (if (n <=? 2 ^ 63)%Z then Some (- n)%Z else None)
            else (if (n <? 2 ^ 63)%Z then Some n else None)
        | None => None
        end
    end in
  match list_ascii_of_string s with
  | "-" :: ds => within true ds
  | "+" :: ds => within false ds
  | ds => within false ds
  end.

Definition decode_int64 : decoder Z := fun j cur =>
  match j with
  | Number lit =>
      match ParseInt lit with
      | Some n => (n, None)
      | None => (cur, Some (UnmarshalTypeError ("number " ++ lit) "int64"))
      end
  | Null => (cur, None)
  | _ => (cur, Some (UnmarshalTypeError (kind j) "int64"))
  end.

(** A [json.RawMessage] holds the bytes of one value; the model keeps the
    value those bytes spell.  As an [Unmarshaler] it takes any value. *)
Definition RawMessage : Type := value.

Definition decode_RawMessage : decoder RawMessage := fun j _ => (j, None).

(** A [*json.RawMessage]: [null] makes the pointer nil, any other value is
    stored behind a pointer that is not nil. *)
Definition decode_ptr_RawMessage : decoder (option RawMessage) := fun j _ =>
  match j with
  | Null => (None, None)
  | _ => (Some j, None)
  end.

(** A Go slice: its elements, and what its backing array holds between
    its length and its capacity. *)
Record slice (A : Type) : Type := mkSlice { elems : list A; spare : list A }.
Arguments mkSlice {A} _ _.
Arguments elems {A} _.
Arguments spare {A} _.

Definition nil {A : Type} : slice A := mkSlice [] [].

Definition len {A : Type} (s : slice A) : nat := length (elems s).

(** The elements of an array go, in order, into the elements the backing
    array already has, and into zero elements once it is used up. *)
Fixpoint decode_elems {A : Type} (dec : decoder A) (zero : A)
    (js : list value) (backing : list A) : list A * list A * option error :=
  match js with
  | [] => ([], backing, None)
  | j :: js' =>
      let '(cur, backing') :=
        match backing with
        | [] => (zero, [])
        | a :: b => (a, b)
        end in
      let '(a, e) := dec j cur in
      let '(out, rest, e') := decode_elems dec zero js' backing' in
      (a :: out, rest, saveError e e')
  end.

Definition decode_slice {A : Type} (ty : string) (dec : decoder A) (zero : A)
  : decoder (slice A) := fun j cur =>
  match j with
  | Array [] => (nil, None)
  | Array js =>
      let '(out, rest, e) := decode_elems dec zero js (elems cur ++ spare cur) in
      (mkSlice out rest, e)
  | Null => (nil, None)
  | _ => (cur, Some (UnmarshalTypeError (kind j) ty))
  end.

(** Folding of names ([foldName]): ASCII letters to upper case, the
    long s (U+017F) to S and the Kelvin sign (U+212A) to K.  These two
    are the only runes outside ASCII that fold to an ASCII letter, so on
    names that are compared with ASCII field names nothing else matters. *)
Fixpoint foldName (s : list ascii) : list ascii :=
  match s with
  | [] => []
  | "197" :: "191" :: s' => "S" :: foldName s'
  | "226" :: "132" :: "170" :: s' => "K" :: foldName s'
  | c :: s' =>
      let n := N_of_ascii c in
      (if ((97 <=? n) && (n <=? 122))%N then ascii_of_N (n - 32) else c)
        :: foldName s'
  end.

Definition equalFold (name key : string) : bool :=
  bool_decide (foldName (list_ascii_of_string name)
               = foldName (list_ascii_of_string key)).

(** The field a key of an object is stored in: the one of that very name,
    else the first one equal to it up to folding, else none. *)
Definition field_of {S : Type} (fields : list (string * decoder S))
    (key : string) : option (decoder S) :=
  match find (fun f => String.eqb (fst f) key) fields with
  | Some f => Some (snd f)
  | None =>
      match find (fun f => equalFold (fst f) key) fields with
      | Some f => Some (snd f)
      | None => None
      end
  end.

(** One member of an object into a struct; a key that names no field is
    skipped. *)
Definition decode_member {S : Type} (fields : list (string * decoder S))
    (acc : S * option error) (m : string * value) : S * option error :=
  match field_of fields (fst m) with
  | Some dec =>
      let '(s', e') := dec (snd m) (fst acc) in (s', saveError (snd acc) e')
  | None => acc
  end.

Definition decode_struct {S : Type} (ty : string)
    (fields : list (string * decoder S)) : decoder S := fun j cur =>
  match j with
  | Object ms => fold_left (decode_member fields) ms (cur, None)
  | Null => (cur, None)
  | _ => (cur, Some (UnmarshalTypeError (kind j) ty))
  end.

(** A field of a struct, from how it is read and written. *)
Definition field {S A : Type} (get : S -> A) (set : A -> S -> S)
    (dec : decoder A) : decoder S := fun j s =>
  let '(a, e) := dec j (get s) in (set a s, e).

(** [json.Unmarshal(data, &v)]: the input is checked first; a document that
    is well formed is decoded into [v]. *)
Definition Unmarshal {A : Type} (dec : decoder A) (data : string) (v : A)
  : A * option error :=
  match parse data with
  | Some j => dec j v
  | None => (v, Some SyntaxError)
  end.

End json.

Module strings.

(** What is left of [s] after the leading [prefix], when [s] starts with
    it. *)
Fixpoint CutPrefix (s prefix : string) {struct prefix} : option string :=
  match prefix with
  | EmptyString => Some s
  | String c prefix' =>
      match s with
      | String d s' => if Ascii.eqb c d then CutPrefix s' prefix' else None
      | EmptyString => None
      end
  end.

(** [strings.TrimPrefix]: [s] without the leading [prefix], and [s] itself
    when it does not start with [prefix]. *)
Definition TrimPrefix (s prefix : string) : string :=
  match CutPrefix s prefix with Some rest => rest | None => s end.

End strings.

(** * The data model (main.go)

    A field of a struct is stored under its json tag, or under its Go name
    when it has no tag. *)

Module Delivery.
Record t : Type := mk {
  Name : string; Phone : string; Zip : string; City : string;
  Address : string; Region : string; Email : string
}.
Definition zero : t := mk "" "" "" "" "" "" "".
Definition decode : json.decoder t :=
  json.decode_struct "main.Delivery"
    [ ("Name", json.field Name (fun v '(mk _ b c d e f g) => mk v b c d e f g) json.decode_string);
      ("Phone", json.field Phone (fun v '(mk a _ c d e f g) => mk a v c d e f g) json.decode_string);
      ("Zip", json.field Zip (fun v '(mk a b _ d e f g) => mk a b v d e f g) json.decode_string);
      ("City", json.field City (fun v '(mk a b c _ e f g) => mk a b c v e f g) json.decode_string);
      ("Address", json.field Address (fun v '(mk a b c d _ f g) => mk a b c d v f g) json.decode_string);
      ("Region", json.field Region (fun v '(mk a b c d e _ g) => mk a b c d e v g) json.decode_string);
      ("Email", json.field Email (fun v '(mk a b c d e f _) => mk a b c d e f v) json.decode_string) ].
End Delivery.

Module Payment.
Record t : Type := mk {
  Transaction : string; RequestID : string; Currency : string;
  Provider : string; Bank : string;
  Amount : Z; PaymentDT : Z; DeliveryCost : Z; GoodsTotal : Z; CustomFee : Z
}.
Definition zero : t := mk "" "" "" "" "" 0 0 0 0 0.
Definition decode : json.decoder t :=
  json.decode_struct "main.Payment"
    [ ("Transaction", json.field Transaction (fun v '(mk _ b c d e f g h i j) => mk v b c d e f g h i j) json.decode_string);
      ("RequestID", json.field RequestID (fun v '(mk a _ c d e f g h i j) => mk a v c d e f g h i j) json.decode_string);
      ("Currency", json.field Currency (fun v '(mk a b _ d e f g h i j) => mk a b v d e f g h i j) json.decode_string);
      ("Provider", json.field Provider (fun v '(mk a b c _ e f g h i j) => mk a b c v e f g h i j) json.decode_string);
      ("Bank", json.field Bank (fun v '(mk a b c d _ f g h i j) => mk a b c d v f g h i j) json.decode_string);
      ("Amount", json.field Amount (fun v '(mk a b c d e _ g h i j) => mk a b c d e v g h i j) json.decode_int64);
      ("PaymentDT", json.field PaymentDT (fun v '(mk a b c d e f _ h i j) => mk a b c d e f v h i j) json.decode_int64);
      ("DeliveryCost", json.field DeliveryCost (fun v '(mk a b c d e f g _ i j) => mk a b c d e f g v i j) json.decode_int64);
      ("GoodsTotal", json.field GoodsTotal (fun v '(mk a b c d e f g h _ j) => mk a b c d e f g h v j) json.decode_int64);
      ("CustomFee", json.field CustomFee (fun v '(mk a b c d e f g h i _) => mk a b c d e f g h i v) json.decode_int64) ].
End Payment.

Module Item.
Record t : Type := mk {
  ChrtID : Z; TrackNumber : string; Price : Z; RID : string; Name : string;
  Sale : Z; Size : string; TotalPrice : Z; NMID : Z; Brand : string;
  Status : Z
}.
Definition zero : t := mk 0 "" 0 "" "" 0 "" 0 0 "" 0.
Definition decode : json.decoder t :=
  json.decode_struct "main.Item"
    [ ("chrt_id", json.field ChrtID (fun v '(mk _ b c d e f g h i j k) => mk v b c d e f g h i j k) json.decode_int64);
      ("track_number", json.field TrackNumber (fun v '(mk a _ c d e f g h i j k) => mk a v c d e f g h i j k) json.decode_string);
      ("price", json.field Price (fun v '(mk a b _ d e f g h i j k) => mk a b v d e f g h i j k) json.decode_int64);
      ("rid", json.field RID (fun v '(mk a b c _ e f g h i j k) => mk a b c v e f g h i j k) json.decode_string);
      ("name", json.field Name (fun v '(mk a b c d _ f g h i j k) => mk a b c d v f g h i j k) json.decode_string);
      ("sale", json.field Sale (fun v '(mk a b c d e _ g h i j k) => mk a b c d e v g h i j k) json.decode_int64);
      ("size", json.field Size (fun v '(mk a b c d e f _ h i j k) => mk a b c d e f v h i j k) json.decode_string);
      ("total_price", json.field TotalPrice (fun v '(mk a b c d e f g _ i j k) => mk a b c d e f g v i j k) json.decode_int64);
      ("nm_id", json.field NMID (fun v '(mk a b c d e f g h _ j k) => mk a b c d e f g h v j k) json.decode_int64);
      ("brand", json.field Brand (fun v '(mk a b c d e f g h i _ k) => mk a b c d e f g h i v k) json.decode_string);
      ("status", json.field Status (fun v '(mk a b c d e f g h i j _) => mk a b c d e f g h i j v) json.decode_int64) ].
End Item.

Module Order.
Record t : Type := mk {
  OrderUID : string; TrackNumber : string; Entry : string; Locale : string;
  InternalSign : string; CustomerID : string; DeliveryService : string;
  ShardKey : string; DateCreated : string; OOFShard : string;
  Delivery : Delivery.t;
  Payment : Payment.t;
  Items : json.slice Item.t;
  SmID : Z
}.
Definition zero : t :=
  mk "" "" "" "" "" "" "" "" "" "" Delivery.zero Payment.zero json.nil 0.
Definition decode : json.decoder t :=
  json.decode_struct "main.Order"
    [ ("OrderUID", json.field OrderUID (fun v '(mk _ b c d e f g h i j k l m n) => mk v b c d e f g h i j k l m n) json.decode_string);
      ("TrackNumber", json.field TrackNumber (fun v '(mk a _ c d e f g h i j k l m n) => mk a v c d e f g h i j k l m n) json.decode_string);
      ("Entry", json.field Entry (fun v '(mk a b _ d e f g h i j k l m n) => mk a b v d e f g h i j k l m n) json.decode_string);
      ("Locale", json.field Locale (fun v '(mk a b c _ e f g h i j k l m n) => mk a b c v e f g h i j k l m n) json.decode_string);
      ("InternalSign", json.field InternalSign (fun v '(mk a b c d _ f g h i j k l m n) => mk a b c d v f g h i j k l m n) json.decode_string);
      ("CustomerID", json.field CustomerID (fun v '(mk a b c d e _ g h i j k l m n) => mk a b c d e v g h i j k l m n) json.decode_string);
      ("DeliveryService", json.field DeliveryService (fun v '(mk a b c d e f _ h i j k l m n) => mk a b c d e f v h i j k l m n) json.decode_string);
      ("ShardKey", json.field ShardKey (fun v '(mk a b c d e f g _ i j k l m n) => mk a b c d e f g v i j k l m n) json.decode_string);
      ("DateCreated", json.field DateCreated (fun v '(mk a b c d e f g h _ j k l m n) => mk a b c d e f g h v j k l m n) json.decode_string);
      ("OOFShard", json.field OOFShard (fun v '(mk a b c d e f g h i _ k l m n) => mk a b c d e f g h i v k l m n) json.decode_string);
      ("Delivery", json.field Delivery (fun v '(mk a b c d e f g h i j _ l m n) => mk a b c d e f g h i j v l m n) Delivery.decode);
      ("Payment", json.field Payment (fun v '(mk a b c d e f g h i j k _ m n) => mk a b c d e f g h i j k v m n) Payment.decode);
      ("Items", json.field Items (fun v '(mk a b c d e f g h i j k l _ n) => mk a b c d e f g h i j k l v n)
                  (json.decode_slice "[]main.Item" Item.decode Item.zero));
      ("sm_id", json.field SmID (fun v '(mk a b c d e f g h i j k l m _) => mk a b c d e f g h i j k l m v) json.decode_int64) ].
End Order.

(** The struct [tmp] of [minimalValidateOrder].  The zero value of an
    element of [Items] never shows: a [json.RawMessage] element takes
    whatever value it is given.  In a type error the type of [tmp], which
    has no name, is written struct. *)
Module tmp.
Record t : Type := mk {
  OrderUID : string;
  Delivery : option json.RawMessage;
  Payment : option json.RawMessage;
  Items : json.slice json.RawMessage
}.
Definition zero : t := mk "" None None json.nil.
Definition order_uid : json.decoder t :=
  json.field OrderUID (fun v '(mk _ b c d) => mk v b c d) json.decode_string.
Definition delivery : json.decoder t :=
  json.field Delivery (fun v '(mk a _ c d) => mk a v c d)
             json.decode_ptr_RawMessage.
Definition payment : json.decoder t :=
  json.field Payment (fun v '(mk a b _ d) => mk a b v d)
             json.decode_ptr_RawMessage.
Definition items : json.decoder t :=
  json.field Items (fun v '(mk a b c _) => mk a b c v)
    (json.decode_slice "[]json.RawMessage" json.decode_RawMessage json.Null).
Definition fields : list (string * json.decoder t) :=
  [ ("order_uid", order_uid); ("delivery", delivery);
    ("payment", payment); ("items", items) ].
Definition decode : json.decoder t := json.decode_struct "struct" fields.
End tmp.

(** * Validation *)

Definition minimalValidateOrder (payload : string) : error + string :=
  if negb (json.Valid payload) then inl (errorString "invalid JSON")
  else
    let '(tmp, err) := json.Unmarshal tmp.decode payload tmp.zero in
    match err with
    | Some e => inl e
    | None =>
        if decide (tmp.OrderUID tmp = "") then inl (errorString "missing order_uid")
        else if bool_decide (tmp.Delivery tmp = None)
                || bool_decide (tmp.Payment tmp = None)
                || bool_decide (json.len (tmp.Items tmp) = 0%nat)
        then inl (errorString "missing required nested fields")
        else inr (tmp.OrderUID tmp)
    end.

(** * The store

    The database behind the pool is the orders table: one row for each
    order_uid (the primary key), with its payload and the time the row was
    created.  The payload column is taken to hold the document as it was
    given; how the database spells a JSONB value when it is read back is not
    modelled.  The cache is the map of the [Store]. *)

Record Row : Type := mkRow { payload : string; created_at : Z }.

Record Store : Type := mkStore {
  db : gmap string Row;
  cache : gmap string string
}.

(** What the environment decides for one statement sent to the database:
    the time at the server, and whether the database executes the statement
    or answers with an error (it cannot be reached, it rejects the
    parameters, ...).  A statement that fails leaves the table as it was. *)
Record Env : Type := mkEnv { now : Z; fault : option error }.

(** What the environment decides for the query of [LoadCache]: the query
    fails; or the scan of row [n] fails; or the connection breaks after
    [n] rows, which ends the iteration and is reported by [rows.Err]. *)
Inductive QueryFault : Type :=
| QueryOk
| QueryFails (e : error)
| ScanFails (n : nat) (e : error)
| RowsBroken (n : nat) (e : error).

Record Rows : Type := mkRows {
  fetched : list (error + string * string);
  rows_Err : option error
}.

Record Msg : Type := mkMsg { Sequence : N; Data : string }.

Inductive LogLine : Type :=
| cache_restored (n : nat)
| drop_invalid_msg (seq : N) (vErr : error)
| db_upsert_failed (seq : N) (id : string) (err : error)
| stored_order (id : string) (seq : N).

(** What a run does that the outside can see, in the order it happens. *)
Inductive Event : Type :=
| EvExec (id payload : string) (err : option error)
| EvCacheSet (id payload : string)
| EvAck (seq : N)
| EvLog (line : LogLine).

(** Code that works on the store and leaves a trace of events. *)
Definition M (A : Type) : Type := Store -> A * Store * list Event.

Definition ret {A : Type} (a : A) : M A := fun s => (a, s, []).

Definition bind {A B : Type} (m : M A) (k : A -> M B) : M B := fun s =>
  let '(a, s1, t1) := m s in
  let '(b, s2, t2) := k a s1 in
  (b, s2, t1 ++ t2).

Notation "x <- m ;; k" := (bind m (fun x => k))
  (at level 100, m at next level, right associativity).
Notation "m ;;; k" := (bind m (fun _ => k))
  (at level 100, right associativity).

Definition emit (e : Event) : M unit := fun s => (tt, s, [e]).

Definition result {A : Type} (r : A * Store * list Event) : A := fst (fst r).
Definition store_of {A : Type} (r : A * Store * list Event) : Store := snd (fst r).
Definition trace {A : Type} (r : A * Store * list Event) : list Event := snd r.

Definition unique_violation : error :=
  errorString "duplicate key value violates unique constraint".

(** [INSERT INTO orders(order_uid, payload) VALUES($1,$2)], followed or not
    by [ON CONFLICT(order_uid) DO UPDATE SET payload=EXCLUDED.payload].  A
    new row is created at the current time.  When the table has a row for
    the key already, the plain statement violates the primary key; with the
    clause, the row keeps its created_at and takes the payload. *)
Definition INSERT_INTO_orders (on_conflict_do_update : bool) (t : Z)
    (id p : string) (tbl : gmap string Row) : error + gmap string Row :=
  match tbl !! id with
  | None => inr (<[id := mkRow p t]> tbl)
  | Some r =>
      if on_conflict_do_update then inr (<[id := mkRow p (created_at r)]> tbl)
      else inl unique_violation
  end.

(** [s.db.Exec] on the statement of [Upsert]. *)
Definition db_Exec (env : Env) (id p : string) : M (option error) := fun s =>
  match fault env with
  | Some e => (Some e, s, [EvExec id p (Some e)])
  | None =>
      match INSERT_INTO_orders true (now env) id p (db s) with
      | inl e => (Some e, s, [EvExec id p (Some e)])
      | inr tbl => (None, mkStore tbl (cache s), [EvExec id p None])
      end
  end.

(** [s.mu.Lock(); s.cache[id] = payload; s.mu.Unlock()] *)
Definition cache_set (id p : string) : M unit := fun s =>
  (tt, mkStore (db s) (<[id := p]> (cache s)), [EvCacheSet id p]).

Definition Upsert (env : Env) (id p : string) : M (option error) :=
  err <- db_Exec env id p ;;
  match err with
  | Some e => ret (Some e)
  | None => cache_set id p ;;; ret None
  end.

(** [Get] returns the value and whether it is there. *)
Definition Get (s : Store) (id : string) : option string := cache s !! id.

(** [SELECT order_uid, payload FROM orders].  The rows come in the order of
    [map_to_list]; in which order they come makes no difference to the cache
    ([load_order_irrelevant] below). *)
Definition db_Query (q : QueryFault) (tbl : gmap string Row) : error + Rows :=
  let all : list (error + string * string) :=
    (fun r => inr (fst r, payload (snd r))) <$> map_to_list tbl in
  match q with
  | QueryOk => inr (mkRows all None)
  | QueryFails e => inl e
  | ScanFails n e => inr (mkRows (take n all ++ [inl e]) None)
  | RowsBroken n e => inr (mkRows (take n all) (Some e))
  end.

(** The loop of [LoadCache]: the rows go into the cache one by one until
    there is none left or a scan fails. *)
Fixpoint load_rows (rs : list (error + string * string)) (n : nat)
  : M (option error * nat) :=
  match rs with
  | [] => ret (None, n)
  | inl e :: _ => ret (Some e, n)
  | inr (id, p) :: rs' => cache_set id p ;;; load_rows rs' (S n)
  end.

Definition LoadCache (q : QueryFault) : M (option error) := fun s =>
  match db_Query q (db s) with
  | inl e => ret (Some e) s
  | inr rows =>
      (r <- load_rows (fetched rows) 0 ;;
       match r with
       | (Some e, _) => ret (Some e)
       | (None, n) => emit (EvLog (cache_restored n)) ;;; ret (rows_Err rows)
       end) s
  end.

(** What the environment decides at start-up: whether the connection string
    parses, the pool connects and the table can be created, how the query
    of [LoadCache] goes, and the rows the table holds. *)
Record StartEnv : Type := mkStartEnv {
  ParseConfig_err : option error;
  NewWithConfig_err : option error;
  initDB_err : option error;
  query_fault : QueryFault;
  orders : gmap string Row
}.

(** [initDB] creates the table and its index unless they exist: the rows
    are what they were. *)
Definition initDB (env : StartEnv) : M (option error) := ret (initDB_err env).

Definition newStore (env : StartEnv) : error + Store :=
  match ParseConfig_err env with
  | Some e => inl e
  | None =>
      match NewWithConfig_err env with
      | Some e => inl e
      | None =>
          let s := mkStore (orders env) ∅ in
          match result (initDB env s) with
          | Some e => inl e
          | None =>
              let r := LoadCache (query_fault env) s in
              match result r with
              | Some e => inl e
              | None => inr (store_of r)
              end
          end
      end
  end.

(** * The pipeline: the handler [main] subscribes to the channel *)

Definition handle (env : Env) (m : Msg) : M unit :=
  match minimalValidateOrder (Data m) with
  | inl vErr =>
      emit (EvLog (drop_invalid_msg (Sequence m) vErr)) ;;;
      emit (EvAck (Sequence m))
  | inr id =>
      err <- Upsert env id (Data m) ;;
      match err with
      | Some e => emit (EvLog (db_upsert_failed (Sequence m) id e))
      | None =>
          emit (EvAck (Sequence m)) ;;;
          emit (EvLog (stored_order id (Sequence m)))
      end
  end.

(** The messages of a subscription are handled one at a time
    ([MaxInflight(1)]), each in the environment it meets. *)
Fixpoint deliver (ms : list (Env * Msg)) : M unit :=
  match ms with
  | [] => ret tt
  | (env, m) :: ms' => handle env m ;;; deliver ms'
  end.

(** * HTTP *)

Module url.

(** [url.Values.Get]: the first value of the key, or the empty string. *)
Definition Get (q : gmap string (list string)) (key : string) : string :=
  match q !! key with
  | Some (v :: _) => v
  | _ => ""
  end.

End url.

Module http.

Definition StatusOK : Z := 200.
Definition StatusBadRequest : Z := 400.
Definition StatusNotFound : Z := 404.

Record Request : Type := mkRequest {
  Path : string;
  Query : gmap string (list string)
}.

(** A response as the handler builds it: the headers, the status once it
    is written, and what was written to the body, either bytes or the
    output [T] of a template. *)
Record ResponseWriter (T : Type) : Type := mkResponse {
  Header : gmap string string;
  Code : option Z;
  Body : list (string + T)
}.
Arguments mkResponse {T} _ _ _.
Arguments Header {T} _.
Arguments Code {T} _.
Arguments Body {T} _.

Definition NewRecorder {T : Type} : ResponseWriter T := mkResponse ∅ None [].

Definition Set_ {T : Type} (k v : string) (w : ResponseWriter T) : ResponseWriter T :=
  mkResponse (<[k := v]> (Header w)) (Code w) (Body w).

(** The status is written once; a later call changes nothing. *)
Definition WriteHeader {T : Type} (code : Z) (w : ResponseWriter T) : ResponseWriter T :=
  match Code w with
  | Some _ => w
  | None => mkResponse (Header w) (Some code) (Body w)
  end.

(** A write before the status was written writes status 200 first. *)
Definition write {T : Type} (b : string + T) (w : ResponseWriter T) : ResponseWriter T :=
  let w' := WriteHeader StatusOK w in
  mkResponse (Header w') (Code w') (Body w' ++ [b]).

Definition Write {T : Type} (b : string) (w : ResponseWriter T) : ResponseWriter T :=
  write (inl b) w.

Definition newline : string := String "010" EmptyString.

Definition Error {T : Type} (msg : string) (code : Z) (w : ResponseWriter T)
  : ResponseWriter T :=
  let w1 := Set_ "Content-Type" "text/plain; charset=utf-8" w in
  let w2 := Set_ "X-Content-Type-Options" "nosniff" w1 in
  write (inl (String.append msg newline)) (WriteHeader code w2).

(** The status the client receives: 200 when the handler wrote none. *)
Definition status {T : Type} (w : ResponseWriter T) : Z :=
  match Code w with Some c => c | None => StatusOK end.

End http.

Definition apiHandler {T : Type} (store : Store) (r : http.Request)
    (w : http.ResponseWriter T) : http.ResponseWriter T :=
  let id := strings.TrimPrefix (http.Path r) "/api/orders/" in
  if bool_decide (id = "") || bool_decide (id = http.Path r)
  then http.Error "missing id" http.StatusBadRequest w
  else
    match Get store id with
    | Some payload =>
        let w1 := http.Set_ "Content-Type" "application/json; charset=utf-8" w in
        http.Write payload (http.WriteHeader http.StatusOK w1)
    | None => http.Error "not found" http.StatusNotFound w
    end.

(** The data the page template is executed on. *)
Record PageData : Type := mkPageData {
  ID : string; Found : bool; Order_ : Order.t; Raw : string
}.

(** What [pageTpl] puts after the search form. *)
Inductive Section_ : Type :=
| OrderSection (order : Order.t) (raw : string)
| NotFoundSection (id : string)
| NoSection.

(** The page: the search form, whose input shows the id, and the section
    after it. *)
Record Page : Type := mkPage { form_value : string; section : Section_ }.

(** [pageTpl]: [{{if .Found}}] the order [{{else if .ID}}] the message that
    the order is not in the cache [{{end}}]. *)
Definition pageTpl (data : PageData) : Page :=
  mkPage (ID data)
    (if Found data then OrderSection (Order_ data) (Raw data)
     else if negb (bool_decide (ID data = "")) then NotFoundSection (ID data)
     else NoSection).

(** [pageTpl.Execute(w, data)] *)
Definition Execute (data : PageData) (w : http.ResponseWriter Page)
  : http.ResponseWriter Page :=
  http.write (inr (pageTpl data)) w.

Definition pageHandler (store : Store) (r : http.Request)
    (w : http.ResponseWriter Page) : http.ResponseWriter Page :=
  let id := url.Get (http.Query r) "id" in
  let data := mkPageData id false Order.zero "" in
  let data :=
    if negb (bool_decide (id = "")) then
      match Get store id with
      | Some payload =>
          mkPageData id true
            (fst (json.Unmarshal Order.decode payload (Order_ data))) payload
      | None => data
      end
    else data in
  let w1 := http.Set_ "Content-Type" "text/html; charset=utf-8" w in
  Execute data w1.

(** * Notions the properties below are stated with *)

(** Every entry of the cache is the payload of the row the table holds for
    that order_uid. *)
Definition cache_durable (s : Store) : Prop :=
  forall id p, cache s !! id = Some p -> payload <$> db s !! id = Some p.

(** In a trace, every write to the cache comes right after the statement
    that wrote the same payload for the same order_uid to the database and
    succeeded. *)
Fixpoint cache_follows_db (t : list Event) : Prop :=
  match t with
  | [] => True
  | EvExec id p None :: t' =>
      match t' with
      | EvCacheSet id' p' :: t'' => id' = id /\ p' = p /\ cache_follows_db t''
      | _ => cache_follows_db t'
      end
  | EvCacheSet _ _ :: _ => False
  | _ :: t' => cache_follows_db t'
  end.

(** The table after the statement of [Upsert] was executed at time [t]. *)
Definition insert_on_conflict_update (t : Z) (id p : string)
    (tbl : gmap string Row) : gmap string Row :=
  match tbl !! id with
  | Some r => <[id := mkRow p (created_at r)]> tbl
  | None => <[id := mkRow p t]> tbl
  end.

(** The values an object gives to a section: those of the members whose
    key names it, as the decoder compares names. *)
Fixpoint section_values (name : string) (ms : list (string * json.value))
  : list json.value :=
  match ms with
  | [] => []
  | (k, v) :: ms' =>
      if json.equalFold name k then v :: section_values name ms'
      else section_values name ms'
  end.

(** The three classes of validation failure of the specification, and the
    error [minimalValidateOrder] builds for each. *)
Inductive failure_class : Type :=
| MalformedPayload
| MissingIdentifier
| MissingRequiredSections.

Definition class_error (c : failure_class) : error :=
  match c with
  | MalformedPayload => errorString "invalid JSON"
  | MissingIdentifier => errorString "missing order_uid"
  | MissingRequiredSections => errorString "missing required nested fields"
  end.

(** A value a string field takes without a type error, and one a slice
    takes without a type error. *)
Definition string_or_null (v : json.value) : Prop :=
  match v with json.String_ _ | json.Null => True | _ => False end.

Definition array_or_null (v : json.value) : Prop :=
  match v with json.Array _ | json.Null => True | _ => False end.

(** Which of the names of the fields of [tmp] a key is equal to up to
    folding. *)
Definition names (k : string) (a b c d : bool) : Prop :=
  json.equalFold "order_uid" k = a /\ json.equalFold "delivery" k = b /\
  json.equalFold "payment" k = c /\ json.equalFold "items" k = d.

(** What storing one value does to each field of [tmp]. *)
Definition store_uid (cur : string) (v : json.value) : string :=
  fst (json.decode_string v cur).

Definition store_ptr (cur : option json.RawMessage) (v : json.value)
  : option json.RawMessage :=
  fst (json.decode_ptr_RawMessage v cur).

Definition store_items (cur : json.slice json.RawMessage) (v : json.value)
  : json.slice json.RawMessage :=
  fst (json.decode_slice "[]json.RawMessage" json.decode_RawMessage json.Null v cur).

(** The type error a member makes, if any. *)
Definition member_error (k : string) (v : json.value) : option error :=
  if json.equalFold "order_uid" k then snd (json.decode_string v "")
  else if json.equalFold "items" k then
    match v with
    | json.Array _ | json.Null => None
    | _ => Some (UnmarshalTypeError (json.kind v) "[]json.RawMessage")
    end
  else None.

(** A document that is well formed and still cannot be stored in [tmp]:
    one that is neither an object nor [null], or an object with an order_uid
    that is neither a string nor [null] or with items that are neither an
    array nor [null]. *)
Definition type_mismatch (j : json.value) : Prop :=
  match j with
  | json.Null => False
  | json.Object ms =>
      Exists (fun v => ~ string_or_null v) (section_values "order_uid" ms) \/
      Exists (fun v => ~ array_or_null v) (section_values "items" ms)
  | _ => True
  end.

(** The failure of [minimalValidateOrder] on a payload, if it fails, is the
    error of one of the three classes. *)
Definition fails_in_three_classes (payload : string) : Prop :=
  forall e, minimalValidateOrder payload = inl e -> exists c, e = class_error c.

#[local] Instance string_or_null_dec (v : json.value) : Decision (string_or_null v).
Proof. destruct v; simpl; apply _. Defined.

#[local] Instance array_or_null_dec (v : json.value) : Decision (array_or_null v).
Proof. destruct v; simpl; apply _. Defined.

(** The page shows the order or the message that it was not found. *)
Definition renders_record_or_not_found (w : http.ResponseWriter Page) : Prop :=
  exists page, http.Body w = [inr page] /\
    ((exists o raw, section page = OrderSection o raw) \/
     (exists id, section page = NotFoundSection id)).

(** Payloads are written below with ' for the double quote. *)
Definition js (s : string) : string :=
  string_of_list_ascii
    (map (fun c => if Ascii.eqb c "'"%char then "034"%char else c)
         (list_ascii_of_string s)).

(** * The rest of the service: notions *)

Module os.

(** [os.Getenv] on the environment of the process: the value of the
    variable, and the empty string when it is not set. *)
Definition Getenv (environ : gmap string string) (key : string) : string :=
  match environ !! key with
  | Some v => v
  | None => ""
  end.

End os.

Definition mustEnv (environ : gmap string string) (key def : string) : string :=
  let v := os.Getenv environ key in
  if negb (bool_decide (v = "")) then v else def.

(** The settings [main] reads, in the order it reads them. *)
Record Config : Type := mkConfig {
  addr : string; dsn : string; natsURL : string; clusterID : string;
  clientID : string; channel : string; durable : string
}.

Definition config (environ : gmap string string) : Config :=
  mkConfig
    (mustEnv environ "HTTP_ADDR" ":8080")
    (mustEnv environ "PG_DSN" "postgres://app:app@db:5432/orders?sslmode=disable")
    (mustEnv environ "NATS_URL" "nats://nats-streaming:4222")
    (mustEnv environ "STAN_CLUSTER_ID" "test-cluster")
    (mustEnv environ "STAN_CLIENT_ID" "orders-service-1")
    (mustEnv environ "STAN_CHANNEL" "orders")
    (mustEnv environ "STAN_DURABLE" "orders-durable").

(** What becomes of a message: it is dropped as invalid, its upsert fails,
    or it is stored. *)
Inductive Outcome : Type :=
| Dropped (vErr : error)
| Failed (id : string) (e : error)
| Stored (id : string).

Definition outcome (env : Env) (m : Msg) : Outcome :=
  match minimalValidateOrder (Data m) with
  | inl vErr => Dropped vErr
  | inr id =>
      match fault env with
      | Some e => Failed id e
      | None => Stored id
      end
  end.

(** The orders of the messages that are stored, in the order the messages
    come. *)
Definition accepted (ms : list (Env * Msg)) : list (string * string) :=
  omap (fun em => match outcome (fst em) (snd em) with
                  | Stored id => Some (id, Data (snd em))
                  | _ => None
                  end) ms.

(** The sequence numbers of the messages that are dropped or stored. *)
Definition settled (ms : list (Env * Msg)) : list N :=
  omap (fun em => match outcome (fst em) (snd em) with
                  | Failed _ _ => None
                  | _ => Some (Sequence (snd em))
                  end) ms.

(** The acknowledgments of a trace. *)
Definition acks (t : list Event) : list N :=
  omap (fun e => match e with EvAck seq => Some seq | _ => None end) t.

(** The strings among some values. *)
Definition strings_of (vs : list json.value) : list string :=
  omap (fun v => match v with json.String_ s => Some s | _ => None end) vs.

(** The path of the JSON endpoint for an identifier. *)
Definition api_path (ident : string) : string :=
  String.append "/api/orders/" ident.

(** The literal a scanner is reading, if it reads true, false or null, has
    no white space left to read. *)
Definition lit_clean (s : json.scanner) : Prop :=
  match json.sc_step s with
  | json.stateLit todo _ => Forall (fun x => json.isSpace x = false) todo
  | _ => True
  end.

(** * encoding/json on some inputs *)

Example parse_object :
  json.parse (js " { 'a' : [1, -0.5e+3, true, null], 'b\u0041' : {} } ")
  = Some (json.Object
            [("a", json.Array [json.Number "1"; json.Number "-0.5e+3";
                               json.Bool true; json.Null]);
             ("bA", json.Object [])]).
Proof. vm_compute. reflexivity. Qed.

Example parse_rejects :
  json.Valid "" = false /\ json.Valid "01" = false /\ json.Valid "[1,]" = false /\
  json.Valid (js "{'a':1,}") = false /\ json.Valid (js "{'a' 1}") = false /\
  json.Valid "1 2" = false /\ json.Valid "tru" = false /\
  json.Valid (js "'a") = false /\ json.Valid "[[]]]" = false.
Proof. vm_compute. repeat split; reflexivity. Qed.

(** [Order] has json tags on sm_id and on the fields of its items only;
    the other fields are stored under their Go names, so order_uid and
    date_created of a payload go nowhere. *)
Example Unmarshal_Order :
  let r := json.Unmarshal Order.decode
    (js "{'order_uid':'b563','locale':'ru','date_created':'2021','sm_id':1,
          'delivery':{'name':'Ivan'},'payment':{'amount':100,'goods_total':90},
          'items':[{'name':'Item','brand':'B','total_price':90,'status':1}]}")
    Order.zero in
  snd r = None /\
  Order.OrderUID (fst r) = "" /\ Order.Locale (fst r) = "ru" /\
  Order.DateCreated (fst r) = "" /\ Order.SmID (fst r) = 1%Z /\
  Delivery.Name (Order.Delivery (fst r)) = "Ivan" /\
  Payment.Amount (Order.Payment (fst r)) = 100%Z /\
  Payment.GoodsTotal (Order.Payment (fst r)) = 0%Z /\
  (Item.Name <$> json.elems (Order.Items (fst r))) = ["Item"].
Proof. vm_compute. repeat split; reflexivity. Qed.

(** * The store: [Upsert], [LoadCache], [Get] *)

Section store.

Implicit Types (s : Store) (env : Env) (id p : string).

(** With its clause the statement never violates the primary key. *)
Lemma INSERT_on_conflict_do_update t id p tbl :
  INSERT_INTO_orders true t id p tbl = inr (insert_on_conflict_update t id p tbl).
Proof.
  unfold INSERT_INTO_orders, insert_on_conflict_update.
  by destruct (tbl !! id).
Qed.

(** Without it a second insert for a key fails. *)
Lemma INSERT_plain_conflict t id p tbl :
  is_Some (tbl !! id) -> INSERT_INTO_orders false t id p tbl = inl unique_violation.
Proof. intros [r Hr]. unfold INSERT_INTO_orders. by rewrite Hr. Qed.

Lemma lookup_insert_on_conflict_update t id p tbl :
  payload <$> insert_on_conflict_update t id p tbl !! id = Some p.
Proof.
  unfold insert_on_conflict_update.
  destruct (tbl !! id); by rewrite lookup_insert_eq.
Qed.

Lemma lookup_insert_on_conflict_update_ne t id id' p tbl :
  id <> id' -> insert_on_conflict_update t id p tbl !! id' = tbl !! id'.
Proof.
  intros Hne. unfold insert_on_conflict_update.
  destruct (tbl !! id); by rewrite lookup_insert_ne.
Qed.

(** The statement run again with the same payload changes no row, at
    whatever time it runs. *)
Lemma insert_on_conflict_update_again t t' id p tbl :
  insert_on_conflict_update t' id p (insert_on_conflict_update t id p tbl)
  = insert_on_conflict_update t id p tbl.
Proof.
  unfold insert_on_conflict_update at 1.
  destruct (insert_on_conflict_update t id p tbl !! id) as [r|] eqn:Hr.
  - apply insert_id. rewrite Hr. f_equal.
    pose proof (lookup_insert_on_conflict_update t id p tbl) as Hp.
    rewrite Hr in Hp. simpl in Hp. destruct r; simpl in *; congruence.
  - pose proof (lookup_insert_on_conflict_update t id p tbl) as Hp.
    rewrite Hr in Hp. discriminate.
Qed.

Lemma Upsert_ok env id p s :
  fault env = None ->
  Upsert env id p s =
    (None,
     mkStore (insert_on_conflict_update (now env) id p (db s))
             (<[id := p]> (cache s)),
     [EvExec id p None; EvCacheSet id p]).
Proof.
  intros Hf. unfold Upsert, bind, db_Exec, cache_set, ret.
  rewrite Hf, INSERT_on_conflict_do_update. done.
Qed.

Lemma Upsert_fails env id p s e :
  fault env = Some e ->
  Upsert env id p s = (Some e, s, [EvExec id p (Some e)]).
Proof.
  intros Hf. unfold Upsert, bind, db_Exec, ret. rewrite Hf. done.
Qed.

Lemma Upsert_cache_durable env id p s :
  cache_durable s -> cache_durable (store_of (Upsert env id p s)).
Proof.
  intros Hinv. destruct (fault env) as [e|] eqn:Hf.
  - by rewrite (Upsert_fails _ _ _ _ e).
  - rewrite Upsert_ok by done. unfold store_of; simpl.
    intros id' p' Hc; simpl in *.
    destruct (decide (id = id')) as [<-|Hne].
    + rewrite lookup_insert_eq in Hc. injection Hc as <-.
      apply lookup_insert_on_conflict_update.
    + rewrite lookup_insert_ne in Hc by done.
      rewrite lookup_insert_on_conflict_update_ne by done. by apply Hinv.
Qed.

End store.

(** C1. A call of [Upsert] touches the cache only after the database has
    executed the statement: when the statement fails, [Upsert] returns that
    error and the store, cache included, is what it was, with no write to
    the cache in the trace; when it succeeds, the row holds the payload and
    the cache is then set to it; and a cache whose every entry is the payload
    of its row in the table stays so. *)
Theorem Upsert_cache_after_durable_write (env : Env) (id p : string) (s : Store) :
  let r := Upsert env id p s in
  (forall e, fault env = Some e ->
     result r = Some e /\ store_of r = s /\ trace r = [EvExec id p (Some e)]) /\
  (fault env = None ->
     result r = None /\
     payload <$> db (store_of r) !! id = Some p /\
     cache (store_of r) = <[id := p]> (cache s) /\
     trace r = [EvExec id p None; EvCacheSet id p]) /\
  (cache_durable s -> cache_durable (store_of r)).
Proof.
  intros r. subst r. repeat split.
  - rewrite (Upsert_fails _ _ _ _ e) by done. done.
  - rewrite (Upsert_fails _ _ _ _ e) by done. done.
  - rewrite (Upsert_fails _ _ _ _ e) by done. done.
  - rewrite Upsert_ok by done. done.
  - rewrite Upsert_ok by done. apply lookup_insert_on_conflict_update.
  - rewrite Upsert_ok by done. done.
  - rewrite Upsert_ok by done. done.
  - apply Upsert_cache_durable.
Qed.

Lemma Upsert_cache_after_durable_write_witness :
  let s : Store := mkStore ∅ ∅ in
  let down := mkEnv 7 (Some (errorString "connection refused")) in
  let up := mkEnv 7 None in
  (result (Upsert down "A1" "{}" s) = Some (errorString "connection refused") /\
   store_of (Upsert down "A1" "{}" s) = s /\
   trace (Upsert down "A1" "{}" s)
     = [EvExec "A1" "{}" (Some (errorString "connection refused"))]) /\
  (result (Upsert up "A1" "{}" s) = None /\
   payload <$> db (store_of (Upsert up "A1" "{}" s)) !! "A1" = Some "{}" /\
   cache (store_of (Upsert up "A1" "{}" s)) = <["A1" := "{}"]> (cache s) /\
   trace (Upsert up "A1" "{}" s) = [EvExec "A1" "{}" None; EvCacheSet "A1" "{}"]) /\
  cache_durable (store_of (Upsert up "A1" "{}" s)).
Proof.
  intros s down up. split; [|split].
  - apply (proj1 (Upsert_cache_after_durable_write down "A1" "{}" s)).
    reflexivity.
  - apply (proj1 (proj2 (Upsert_cache_after_durable_write up "A1" "{}" s))).
    reflexivity.
  - apply (proj2 (proj2 (Upsert_cache_after_durable_write up "A1" "{}" s))).
    intros id p H. subst s. simpl in H. rewrite lookup_empty in H.
    discriminate H.
Defined.

(** C4. [Upsert] is idempotent: once a call with an identifier and a payload
    has gone through, a second call with the same identifier and payload
    leaves the table, creation times included, and the cache as the first
    call left them, whether the second call reaches the database or not. *)
Theorem Upsert_idempotent (env1 env2 : Env) (id p : string) (s : Store) :
  fault env1 = None ->
  store_of (Upsert env2 id p (store_of (Upsert env1 id p s)))
  = store_of (Upsert env1 id p s).
Proof.
  intros H1. rewrite (Upsert_ok env1) by done. unfold store_of at 2 3; simpl.
  destruct (fault env2) as [e|] eqn:H2.
  - by rewrite (Upsert_fails _ _ _ _ e).
  - rewrite Upsert_ok by done. unfold store_of; simpl.
    by rewrite insert_on_conflict_update_again, insert_insert_eq.
Qed.

Lemma Upsert_idempotent_witness :
  store_of (Upsert (mkEnv 20 None) "A1" "{}"
              (store_of (Upsert (mkEnv 10 None) "A1" "{}" (mkStore ∅ ∅))))
  = store_of (Upsert (mkEnv 10 None) "A1" "{}" (mkStore ∅ ∅)).
Proof. apply Upsert_idempotent. reflexivity. Defined.

(** C5. Two calls of [Upsert] for one identifier, with any two payloads,
    both succeed when the database executes the statements (the second one
    meets the row of the first and updates it instead of failing), and after
    them the table and the cache hold the second payload for the
    identifier. *)
Theorem Upsert_last_write_wins (env1 env2 : Env) (id p1 p2 : string) (s : Store) :
  fault env1 = None -> fault env2 = None ->
  let r1 := Upsert env1 id p1 s in
  let r2 := Upsert env2 id p2 (store_of r1) in
  result r1 = None /\ result r2 = None /\
  payload <$> db (store_of r2) !! id = Some p2 /\
  Get (store_of r2) id = Some p2.
Proof.
  intros H1 H2 r1 r2. subst r1 r2.
  rewrite (Upsert_ok env1) by done. rewrite (Upsert_ok env2) by done.
  unfold result, store_of, Get; simpl. repeat split.
  - apply lookup_insert_on_conflict_update.
  - apply lookup_insert_eq.
Qed.

Lemma Upsert_last_write_wins_witness :
  let r1 := Upsert (mkEnv 10 None) "A1" "{}" (mkStore ∅ ∅) in
  let r2 := Upsert (mkEnv 20 None) "A1" "[]" (store_of r1) in
  result r1 = None /\ result r2 = None /\
  payload <$> db (store_of r2) !! "A1" = Some "[]" /\
  Get (store_of r2) "A1" = Some "[]".
Proof. apply Upsert_last_write_wins; reflexivity. Defined.

Section bootstrap.

Implicit Types (s : Store) (l : list (string * string)).

(** The cache after the rows [l] were put into the cache [c] in order. *)
Lemma foldl_cache_set l (c : gmap string string) :
  foldl (fun c r => <[fst r := snd r]> c) c l = list_to_map (reverse l) ∪ c.
Proof.
  revert c. induction l as [|[k v] l IH]; intros c; simpl.
  - by rewrite (left_id_L ∅ (∪)).
  - rewrite IH, reverse_cons, list_to_map_app. simpl.
    rewrite <- (assoc_L (∪)). f_equal.
    rewrite insert_empty. by rewrite <- insert_union_singleton_l.
Qed.

Lemma load_rows_fetched l n s :
  load_rows (inr <$> l) n s =
    ((None, (n + length l)%nat),
     mkStore (db s) (foldl (fun c r => <[fst r := snd r]> c) (cache s) l),
     (fun r => EvCacheSet (fst r) (snd r)) <$> l).
Proof.
  revert n s. induction l as [|[k v] l IH]; intros n s; simpl.
  - unfold ret. rewrite Nat.add_0_r. by destruct s.
  - unfold bind, cache_set. rewrite IH. simpl.
    replace (S (n + length l)) with (n + S (length l))%nat by lia. done.
Qed.

Lemma load_rows_scan_fails l e rest n s :
  result (load_rows ((inr <$> l) ++ inl e :: rest) n s)
  = (Some e, (n + length l)%nat).
Proof.
  revert n s. induction l as [|[k v] l IH]; intros n s; simpl.
  - unfold result, ret; simpl. by rewrite Nat.add_0_r.
  - unfold bind, cache_set.
    specialize (IH (S n) (mkStore (db s) (<[k:=v]> (cache s)))).
    destruct (load_rows _ _ _) as [[a s'] t'].
    unfold result in *; simpl in *. rewrite IH. f_equal. lia.
Qed.

(** Rows with distinct keys give the same cache in whatever order they are
    put into it. *)
Lemma load_order_irrelevant l l' (c : gmap string string) :
  NoDup l.*1 -> l ≡ₚ l' ->
  foldl (fun c r => <[fst r := snd r]> c) c l
  = foldl (fun c r => <[fst r := snd r]> c) c l'.
Proof.
  intros Hnd Hperm. rewrite !foldl_cache_set. f_equal.
  apply list_to_map_proper.
  - by rewrite fmap_reverse, reverse_Permutation.
  - by rewrite !reverse_Permutation.
Qed.

(** The rows of the table, as the query returns them, make up the map
    from each order_uid to its payload. *)
Lemma rows_to_map (tbl : gmap string Row) :
  list_to_map (reverse ((fun r => (fst r, payload (snd r))) <$> map_to_list tbl))
  = (payload <$> tbl : gmap string string).
Proof.
  rewrite <- (list_to_map_to_list (payload <$> tbl)).
  apply list_to_map_proper.
  - rewrite fmap_reverse, reverse_Permutation.
    rewrite <- list_fmap_compose.
    apply NoDup_fst_map_to_list.
  - rewrite reverse_Permutation. by rewrite map_to_list_fmap.
Qed.

Lemma fetched_all (rows : list (string * Row)) :
  ((fun r => inr (fst r, payload (snd r))) <$> rows
     : list (error + string * string))
  = inr <$> ((fun r => (fst r, payload (snd r))) <$> rows).
Proof. by rewrite <- list_fmap_compose. Qed.

Lemma LoadCache_ok s :
  LoadCache QueryOk s =
    (None,
     mkStore (db s) ((payload <$> db s) ∪ cache s),
     ((fun r => EvCacheSet (fst r) (payload (snd r))) <$> map_to_list (db s))
       ++ [EvLog (cache_restored (size (db s)))]).
Proof.
  unfold LoadCache, db_Query; simpl. unfold bind.
  rewrite fetched_all, load_rows_fetched. simpl.
  rewrite foldl_cache_set, rows_to_map.
  rewrite <- list_fmap_compose. rewrite !length_fmap. simpl.
  rewrite length_map_to_list. unfold emit, ret; simpl. done.
Qed.

Lemma LoadCache_fails q s :
  q <> QueryOk -> exists e, result (LoadCache q s) = Some e.
Proof.
  intros Hq. destruct q as [|e|n e|n e]; [done| | |].
  - exists e. done.
  - exists e. unfold LoadCache, db_Query; simpl. unfold bind.
    rewrite fetched_all, <- fmap_take.
    pose proof (load_rows_scan_fails
      (take n ((fun r => (fst r, payload (snd r))) <$> map_to_list (db s)))
      e [] 0 s) as H.
    destruct (load_rows _ _ _) as [[a s'] t'].
    unfold result in *; simpl in *. subst a. done.
  - exists e. unfold LoadCache, db_Query; simpl. unfold bind.
    rewrite fetched_all, <- fmap_take, load_rows_fetched. done.
Qed.

(** What the load puts in the cache came from a row. *)
Lemma LoadCache_ok_cache_durable s :
  cache_durable s -> cache_durable (store_of (LoadCache QueryOk s)).
Proof.
  intros Hinv. rewrite LoadCache_ok. unfold store_of; simpl.
  intros id p; simpl. intros Hc.
  apply lookup_union_Some_raw in Hc as [Hc|[Hnone Hc]].
  - by rewrite <- lookup_fmap.
  - by apply Hinv.
Qed.

(** A start that succeeds leaves the table as it was and the cache holding
    the payload of every row. *)
Lemma newStore_ok (env : StartEnv) s :
  newStore env = inr s -> s = mkStore (orders env) (payload <$> orders env).
Proof.
  unfold newStore. intros H.
  destruct (ParseConfig_err env); [done|].
  destruct (NewWithConfig_err env); [done|].
  change (result (initDB env (mkStore (orders env) ∅)))
    with (initDB_err env) in H.
  destruct (initDB_err env); [done|].
  destruct (query_fault env) as [|e|n e|n e] eqn:Hq.
  - rewrite LoadCache_ok in H. unfold result, store_of in H; simpl in H.
    injection H as <-. by rewrite (right_id_L ∅ (∪)).
  - destruct (LoadCache_fails (QueryFails e) (mkStore (orders env) ∅))
      as [e' He]; [done|]. by rewrite He in H.
  - destruct (LoadCache_fails (ScanFails n e) (mkStore (orders env) ∅))
      as [e' He]; [done|]. by rewrite He in H.
  - destruct (LoadCache_fails (RowsBroken n e) (mkStore (orders env) ∅))
      as [e' He]; [done|]. by rewrite He in H.
Qed.

End bootstrap.

(** C6. Bootstrap completeness: when [newStore] succeeds, the table is what
    it was at start and, for every identifier, [Get] returns the payload of
    the row the table holds for it and nothing when the table holds no row:
    no record is left out of the cache and no entry is made up. *)
Theorem newStore_bootstrap_complete (env : StartEnv) (s : Store) :
  newStore env = inr s ->
  db s = orders env /\
  forall id, Get s id = payload <$> orders env !! id.
Proof.
  intros H. apply newStore_ok in H as ->. split; [done|].
  intros id. unfold Get; simpl. by rewrite lookup_fmap.
Qed.

Lemma newStore_bootstrap_complete_witness :
  let tbl : gmap string Row := <["B2" := mkRow "[]" 9]> {["A1" := mkRow "{}" 5]} in
  let env := mkStartEnv None None None QueryOk tbl in
  let s := mkStore tbl (<["B2" := "[]"]> {["A1" := "{}"]}) in
  db s = orders env /\ forall id, Get s id = payload <$> orders env !! id.
Proof.
  intros tbl env s. apply newStore_bootstrap_complete.
  vm_compute. reflexivity.
Defined.

(** * The pipeline *)

Section pipeline.

Implicit Types (s : Store) (env : Env) (m : Msg).

Lemma handle_invalid env m s vErr :
  minimalValidateOrder (Data m) = inl vErr ->
  handle env m s =
    (tt, s, [EvLog (drop_invalid_msg (Sequence m) vErr); EvAck (Sequence m)]).
Proof. intros Hv. unfold handle. rewrite Hv. done. Qed.

Lemma handle_upsert_fails env m s id e :
  minimalValidateOrder (Data m) = inr id -> fault env = Some e ->
  handle env m s =
    (tt, s, [EvExec id (Data m) (Some e);
             EvLog (db_upsert_failed (Sequence m) id e)]).
Proof.
  intros Hv Hf. unfold handle. rewrite Hv. unfold bind.
  rewrite (Upsert_fails _ _ _ _ e) by done. done.
Qed.

Lemma handle_stored env m s id :
  minimalValidateOrder (Data m) = inr id -> fault env = None ->
  handle env m s =
    (tt, store_of (Upsert env id (Data m) s),
     [EvExec id (Data m) None; EvCacheSet id (Data m);
      EvAck (Sequence m); EvLog (stored_order id (Sequence m))]).
Proof.
  intros Hv Hf. unfold handle. rewrite Hv. unfold bind.
  rewrite Upsert_ok by done. done.
Qed.

Lemma handle_cache_durable env m s :
  cache_durable s -> cache_durable (store_of (handle env m s)).
Proof.
  intros Hinv. destruct (minimalValidateOrder (Data m)) as [vErr|id] eqn:Hv.
  - by rewrite (handle_invalid _ _ _ vErr).
  - destruct (fault env) as [e|] eqn:Hf.
    + by rewrite (handle_upsert_fails _ _ _ id e).
    + rewrite (handle_stored _ _ _ id) by done.
      by apply Upsert_cache_durable.
Qed.

Lemma deliver_cache_durable (ms : list (Env * Msg)) s :
  cache_durable s -> cache_durable (store_of (deliver ms s)).
Proof.
  revert s. induction ms as [|[env m] ms IH]; intros s Hinv; simpl; [done|].
  unfold bind. pose proof (handle_cache_durable env m s Hinv) as H1.
  destruct (handle env m s) as [[[] s1] t1]. specialize (IH s1 H1).
  destruct (deliver ms s1) as [[[] s2] t2]. done.
Qed.

(** Whatever messages arrive and whenever the database fails, the pipeline
    writes to the cache only what it has just written to the database. *)
Lemma deliver_cache_follows_db (ms : list (Env * Msg)) s :
  cache_follows_db (trace (deliver ms s)).
Proof.
  revert s. induction ms as [|[env m] ms IH]; intros s; simpl; [done|].
  unfold bind.
  destruct (minimalValidateOrder (Data m)) as [vErr|id] eqn:Hv.
  - rewrite (handle_invalid _ _ _ vErr) by done.
    specialize (IH s). destruct (deliver ms s) as [[[] s2] t2]. done.
  - destruct (fault env) as [e|] eqn:Hf.
    + rewrite (handle_upsert_fails _ _ _ id e) by done.
      specialize (IH s). destruct (deliver ms s) as [[[] s2] t2]. done.
    + rewrite (handle_stored _ _ _ id) by done.
      specialize (IH (store_of (Upsert env id (Data m) s))).
      destruct (deliver ms _) as [[[] s2] t2]. done.
Qed.

(** From start-up on, whatever messages arrive and whenever the database
    fails, every entry of the cache is the payload of its row. *)
Lemma service_cache_durable (start : StartEnv) (ms : list (Env * Msg)) s :
  newStore start = inr s -> cache_durable (store_of (deliver ms s)).
Proof.
  intros Hs. apply deliver_cache_durable.
  apply newStore_ok in Hs as ->.
  intros id p Hc; simpl in *. by rewrite <- lookup_fmap.
Qed.

End pipeline.

(** C3. The handler of a message: when the payload does not validate, the
    drop is logged and the message is acknowledged, with the store
    untouched; when it validates and the upsert fails, the handler returns
    with no acknowledgment at all, the store untouched and the failure
    logged; when the upsert succeeds, the acknowledgment comes after the
    write to the database and after the update of the cache, in that
    order. *)
Theorem handle_ack_policy (env : Env) (m : Msg) (s : Store) :
  let r := handle env m s in
  (forall vErr, minimalValidateOrder (Data m) = inl vErr ->
     trace r = [EvLog (drop_invalid_msg (Sequence m) vErr); EvAck (Sequence m)] /\
     store_of r = s) /\
  (forall id e, minimalValidateOrder (Data m) = inr id -> fault env = Some e ->
     (forall seq, EvAck seq ∉ trace r) /\
     EvLog (db_upsert_failed (Sequence m) id e) ∈ trace r /\
     store_of r = s) /\
  (forall id, minimalValidateOrder (Data m) = inr id -> fault env = None ->
     trace r = [EvExec id (Data m) None; EvCacheSet id (Data m);
                EvAck (Sequence m); EvLog (stored_order id (Sequence m))] /\
     payload <$> db (store_of r) !! id = Some (Data m) /\
     Get (store_of r) id = Some (Data m)).
Proof.
  intros r. subst r. split; [|split].
  - intros vErr Hv. by rewrite (handle_invalid _ _ _ vErr).
  - intros id e Hv Hf. rewrite (handle_upsert_fails _ _ _ id e) by done.
    unfold trace, store_of; simpl. split; [|split]; [| |done].
    + intros seq. rewrite !elem_of_cons, elem_of_nil.
      intros [Heq|[Heq|[]]]; discriminate Heq.
    + rewrite !elem_of_cons. by right; left.
  - intros id Hv Hf. rewrite (handle_stored _ _ _ id) by done.
    rewrite Upsert_ok by done. unfold trace, store_of, Get; simpl.
    split; [done|]. split.
    + apply lookup_insert_on_conflict_update.
    + apply lookup_insert_eq.
Qed.

Lemma handle_ack_policy_witness :
  let s : Store := mkStore ∅ ∅ in
  let up := mkEnv 7 None in
  let down := mkEnv 7 (Some (errorString "connection refused")) in
  let good := js "{'order_uid':'A1','delivery':{},'payment':{},'items':[{'x':1}]}" in
  (trace (handle up (mkMsg 1 "not json") s)
     = [EvLog (drop_invalid_msg 1 (errorString "invalid JSON")); EvAck 1] /\
   store_of (handle up (mkMsg 1 "not json") s) = s) /\
  ((forall seq, EvAck seq ∉ trace (handle down (mkMsg 2 good) s)) /\
   EvLog (db_upsert_failed 2 "A1" (errorString "connection refused"))
     ∈ trace (handle down (mkMsg 2 good) s) /\
   store_of (handle down (mkMsg 2 good) s) = s) /\
  (trace (handle up (mkMsg 3 good) s)
     = [EvExec "A1" good None; EvCacheSet "A1" good; EvAck 3;
        EvLog (stored_order "A1" 3)] /\
   payload <$> db (store_of (handle up (mkMsg 3 good) s)) !! "A1" = Some good /\
   Get (store_of (handle up (mkMsg 3 good) s)) "A1" = Some good).
Proof.
  intros s up down good. split; [|split].
  - apply (proj1 (handle_ack_policy up (mkMsg 1 "not json") s)).
    vm_compute. reflexivity.
  - apply (proj1 (proj2 (handle_ack_policy down (mkMsg 2 good) s))).
    + vm_compute. reflexivity.
    + reflexivity.
  - apply (proj2 (proj2 (handle_ack_policy up (mkMsg 3 good) s))).
    + vm_compute. reflexivity.
    + reflexivity.
Defined.

(** * The HTTP handlers *)

Section handlers.

Lemma CutPrefix_append (p s : string) :
  strings.CutPrefix (String.append p s) p = Some s.
Proof.
  induction p as [|c p IH]; simpl; [done|]. by rewrite Ascii.eqb_refl.
Qed.

Lemma TrimPrefix_append (p s : string) :
  strings.TrimPrefix (String.append p s) p = s.
Proof. unfold strings.TrimPrefix. by rewrite CutPrefix_append. Qed.

Lemma length_append (p s : string) :
  String.length (String.append p s) = (String.length p + String.length s)%nat.
Proof. induction p as [|c p IH]; simpl; [done|]. by rewrite IH. Qed.

(** What is left of a path after a prefix that is not empty is not the
    path. *)
Lemma append_neq (c : ascii) (p s : string) : s <> String.append (String c p) s.
Proof.
  intros Heq. apply (f_equal String.length) in Heq.
  rewrite length_append in Heq. simpl in Heq. lia.
Qed.

Lemma apiHandler_path {T : Type} (store : Store) (ident : string)
    (query : gmap string (list string)) (w : http.ResponseWriter T) :
  apiHandler store (http.mkRequest (String.append "/api/orders/" ident) query) w =
    if bool_decide (ident = "")
    then http.Error "missing id" http.StatusBadRequest w
    else
      match Get store ident with
      | Some payload =>
          http.Write payload
            (http.WriteHeader http.StatusOK
               (http.Set_ "Content-Type" "application/json; charset=utf-8" w))
      | None => http.Error "not found" http.StatusNotFound w
      end.
Proof.
  unfold apiHandler. cbn [http.Path]. rewrite TrimPrefix_append.
  rewrite (bool_decide_eq_false_2 (ident = String.append _ ident));
    [|apply append_neq].
  by rewrite orb_false_r.
Qed.

End handlers.

(** C8. [GET /api/orders/{identifier}]: the answer is 400 when the
    identifier is empty; else 200, with the cached payload, byte for byte,
    as the body and the JSON content type, when the cache has an entry for
    the identifier; else 404. *)
Theorem apiHandler_responses (store : Store) (ident : string)
    (query : gmap string (list string)) :
  let w : http.ResponseWriter Page :=
    apiHandler store (http.mkRequest (String.append "/api/orders/" ident) query)
               http.NewRecorder in
  (ident = "" -> http.status w = 400%Z) /\
  (forall payload, ident <> "" -> Get store ident = Some payload ->
     http.status w = 200%Z /\ http.Body w = [inl payload] /\
     http.Header w !! "Content-Type"
       = Some "application/json; charset=utf-8") /\
  (ident <> "" -> Get store ident = None -> http.status w = 404%Z).
Proof.
  intros w. subst w. rewrite apiHandler_path. split; [|split].
  - intros ->. done.
  - intros payload Hne Hget. rewrite bool_decide_eq_false_2 by done.
    rewrite Hget. done.
  - intros Hne Hget. rewrite bool_decide_eq_false_2 by done.
    rewrite Hget. done.
Qed.

Lemma apiHandler_responses_witness :
  let store := mkStore ∅ {["A1" := "{}"]} in
  let get (path : string) : http.ResponseWriter Page :=
    apiHandler store (http.mkRequest path ∅) http.NewRecorder in
  http.status (get "/api/orders/") = 400%Z /\
  (http.status (get "/api/orders/A1") = 200%Z /\
   http.Body (get "/api/orders/A1") = [inl "{}"] /\
   http.Header (get "/api/orders/A1") !! "Content-Type"
     = Some "application/json; charset=utf-8") /\
  http.status (get "/api/orders/unknown") = 404%Z.
Proof.
  intros store get. split; [|split].
  - apply (proj1 (apiHandler_responses store "" ∅)). reflexivity.
  - apply (proj1 (proj2 (apiHandler_responses store "A1" ∅))).
    + discriminate.
    + reflexivity.
  - apply (proj2 (proj2 (apiHandler_responses store "unknown" ∅))).
    + discriminate.
    + reflexivity.
Defined.

Section page.

Implicit Types (store : Store) (r : http.Request).

(** The handler writes one thing, the page, and no status of its own. *)
Lemma pageHandler_page store r :
  let id := url.Get (http.Query r) "id" in
  pageHandler store r http.NewRecorder =
    http.mkResponse {["Content-Type" := "text/html; charset=utf-8"]}
      (Some http.StatusOK)
      [inr (mkPage id
              (if bool_decide (id = "") then NoSection
               else match Get store id with
                    | Some payload =>
                        OrderSection
                          (fst (json.Unmarshal Order.decode payload Order.zero))
                          payload
                    | None => NotFoundSection id
                    end))].
Proof.
  intros id. unfold pageHandler. fold id.
  unfold Execute, http.write, http.WriteHeader, http.Set_, http.NewRecorder.
  cbn [http.Code http.Header http.Body]. rewrite insert_empty.
  unfold pageTpl. f_equal. simpl.
  destruct (bool_decide (id = "")) eqn:Hid; simpl.
  - by rewrite Hid.
  - destruct (Get store id) as [payload|]; simpl; [done|].
    by rewrite Hid.
Qed.

End page.

(** C9, as the claim has it, fails for the empty identifier: the request
    [GET /orders?id=] is answered with status 200 and a page that has the
    search form and nothing after it, neither an order nor the message that
    the order was not found. *)
Lemma pageHandler_empty_id_renders_neither :
  let w := pageHandler (mkStore ∅ ∅)
             (http.mkRequest "/orders" {["id" := [""]]}) http.NewRecorder in
  http.Body w = [inr (mkPage "" NoSection)] /\
  ~ (http.status w = 200%Z /\ renders_record_or_not_found w).
Proof.
  intros w. subst w. rewrite pageHandler_page. split; [reflexivity|].
  intros [_ (page & Hbody & [(o & raw & Hs)|(id & Hs)])];
    injection Hbody as <-; discriminate Hs.
Qed.

(** C9, amended. [GET /orders?id={identifier}] is answered with status 200,
    never 404, and an HTML page whose search form shows the identifier; after
    the form the page shows the order when the identifier is not empty and
    the cache has an entry for it, the message that the order was not found
    when the identifier is not empty and the cache has no entry for it, and
    nothing when the identifier is empty. *)
Theorem pageHandler_always_200 (store : Store) (r : http.Request) :
  let id := url.Get (http.Query r) "id" in
  let w := pageHandler store r http.NewRecorder in
  http.status w = 200%Z /\ http.status w <> 404%Z /\
  http.Header w !! "Content-Type" = Some "text/html; charset=utf-8" /\
  exists page, http.Body w = [inr page] /\ form_value page = id /\
    ((id <> "" /\ exists payload o,
        Get store id = Some payload /\ section page = OrderSection o payload) \/
     (id <> "" /\ Get store id = None /\ section page = NotFoundSection id) \/
     (id = "" /\ section page = NoSection)).
Proof.
  intros id w. subst w. rewrite pageHandler_page. fold id.
  split; [done|]. split; [done|]. split; [done|].
  eexists. split; [reflexivity|]. split; [done|]. simpl.
  destruct (decide (id = "")) as [Hid|Hid].
  - right; right. by rewrite bool_decide_eq_true_2.
  - rewrite bool_decide_eq_false_2 by done.
    destruct (Get store id) as [payload|] eqn:Hget.
    + left. split; [done|]. by eexists _, _.
    + right; left. done.
Qed.

(** C10. An identifier (not empty, as identifiers are) whose entry in the
    cache does not unmarshal into [Order]: the page handler still answers
    with status 200 and the HTML page of a found order, showing the raw
    payload and the order as far as it was decoded; the error of
    [json.Unmarshal] appears nowhere in the response. *)
Theorem pageHandler_discards_unmarshal_error (store : Store) (r : http.Request)
    (id payload : string) (e : error) :
  url.Get (http.Query r) "id" = id ->
  id <> "" ->
  Get store id = Some payload ->
  snd (json.Unmarshal Order.decode payload Order.zero) = Some e ->
  let w := pageHandler store r http.NewRecorder in
  http.status w = 200%Z /\
  http.Header w !! "Content-Type" = Some "text/html; charset=utf-8" /\
  http.Body w =
    [inr (mkPage id
            (OrderSection (fst (json.Unmarshal Order.decode payload Order.zero))
                          payload))].
Proof.
  intros Hq Hid Hget _ w. subst w. rewrite pageHandler_page, Hq.
  rewrite bool_decide_eq_false_2 by done. rewrite Hget. done.
Qed.

(** The payload of the witness passes [minimalValidateOrder], so it reaches
    the cache through the pipeline as well as through bootstrap. *)
Lemma pageHandler_discards_unmarshal_error_witness :
  let payload := js "{'order_uid':'A1','delivery':1,'payment':{},'items':[{'x':1}]}" in
  let store := mkStore ∅ {["A1" := payload]} in
  let w := pageHandler store (http.mkRequest "/orders" {["id" := ["A1"]]})
             http.NewRecorder in
  minimalValidateOrder payload = inr "A1" /\
  http.status w = 200%Z /\
  http.Header w !! "Content-Type" = Some "text/html; charset=utf-8" /\
  http.Body w =
    [inr (mkPage "A1"
            (OrderSection (fst (json.Unmarshal Order.decode payload Order.zero))
                          payload))].
Proof.
  intros payload store w. split; [vm_compute; reflexivity|].
  apply (pageHandler_discards_unmarshal_error store
           (http.mkRequest "/orders" {["id" := ["A1"]]}) "A1" payload
           (UnmarshalTypeError "number" "main.Delivery")).
  - reflexivity.
  - discriminate.
  - reflexivity.
  - vm_compute. reflexivity.
Defined.

(** * The validator *)

Section validator.

Implicit Types (k : string) (v : json.value) (ms : list (string * json.value))
  (acc : tmp.t * option error).

Local Arguments json.equalFold : simpl never.

Lemma equalFold_eq name k :
  json.equalFold name k = true ->
  forall name', json.equalFold name' k = json.equalFold name' name.
Proof.
  unfold json.equalFold. intros H name'.
  apply bool_decide_eq_true_1 in H. by rewrite H.
Qed.

(** A key names at most one field of [tmp]. *)
Lemma tmp_key_cases k :
  names k true false false false \/ names k false true false false \/
  names k false false true false \/ names k false false false true \/
  names k false false false false.
Proof.
  unfold names.
  destruct (json.equalFold "order_uid" k) eqn:H1.
  { left. rewrite !(equalFold_eq _ _ H1). by vm_compute. }
  destruct (json.equalFold "delivery" k) eqn:H2.
  { right; left. rewrite !(equalFold_eq _ _ H2). by vm_compute. }
  destruct (json.equalFold "payment" k) eqn:H3.
  { right; right; left. rewrite !(equalFold_eq _ _ H3). by vm_compute. }
  destruct (json.equalFold "items" k) eqn:H4; naive_solver.
Qed.

Lemma field_of_tmp k :
  json.field_of tmp.fields k =
    if json.equalFold "order_uid" k then Some tmp.order_uid
    else if json.equalFold "delivery" k then Some tmp.delivery
    else if json.equalFold "payment" k then Some tmp.payment
    else if json.equalFold "items" k then Some tmp.items
    else None.
Proof.
  unfold json.field_of, tmp.fields. cbn [find fst snd].
  destruct (String.eqb_spec "order_uid" k) as [<-|_]; [by vm_compute|].
  destruct (String.eqb_spec "delivery" k) as [<-|_]; [by vm_compute|].
  destruct (String.eqb_spec "payment" k) as [<-|_]; [by vm_compute|].
  destruct (String.eqb_spec "items" k) as [<-|_]; [by vm_compute|].
  repeat (match goal with |- context [if json.equalFold ?n k then _ else _] =>
            destruct (json.equalFold n k) end; try done).
Qed.

Abbreviation dm := (json.decode_member tmp.fields).

Ltac tmp_member k :=
  unfold json.decode_member; cbn [fst snd]; rewrite field_of_tmp;
  let H1 := fresh in let H2 := fresh in let H3 := fresh in let H4 := fresh in
  destruct (tmp_key_cases k) as
    [(H1 & H2 & H3 & H4)|[(H1 & H2 & H3 & H4)|[(H1 & H2 & H3 & H4)|
     [(H1 & H2 & H3 & H4)|(H1 & H2 & H3 & H4)]]]];
  rewrite ?H1, ?H2, ?H3, ?H4; clear H1 H2 H3 H4.

Lemma decode_elems_RawMessage js backing :
  let r := json.decode_elems json.decode_RawMessage json.Null js backing in
  fst (fst r) = js /\ snd r = None.
Proof.
  revert backing. induction js as [|j js IH]; intros backing; simpl; [done|].
  destruct backing as [|a b]; simpl.
  - specialize (IH []). destruct (json.decode_elems _ _ js []) as [[out rest] e].
    simpl in *. destruct IH as [-> ->]. done.
  - specialize (IH b). destruct (json.decode_elems _ _ js b) as [[out rest] e].
    simpl in *. destruct IH as [-> ->]. done.
Qed.

Lemma member_OrderUID acc k v :
  tmp.OrderUID (fst (dm acc (k, v))) =
    if json.equalFold "order_uid" k then store_uid (tmp.OrderUID (fst acc)) v
    else tmp.OrderUID (fst acc).
Proof.
  destruct acc as [[a b c d] e]. tmp_member k; try done.
  - unfold tmp.order_uid, json.field, store_uid; simpl.
    by destruct (json.decode_string v a).
  - unfold tmp.delivery, json.field; simpl.
    by destruct (json.decode_ptr_RawMessage v b).
  - unfold tmp.payment, json.field; simpl.
    by destruct (json.decode_ptr_RawMessage v c).
  - unfold tmp.items, json.field; simpl.
    by destruct (json.decode_slice _ _ _ v d).
Qed.

Lemma member_Delivery acc k v :
  tmp.Delivery (fst (dm acc (k, v))) =
    if json.equalFold "delivery" k then store_ptr (tmp.Delivery (fst acc)) v
    else tmp.Delivery (fst acc).
Proof.
  destruct acc as [[a b c d] e]. tmp_member k; try done.
  - unfold tmp.order_uid, json.field; simpl.
    by destruct (json.decode_string v a).
  - unfold tmp.delivery, json.field, store_ptr; simpl.
    by destruct (json.decode_ptr_RawMessage v b).
  - unfold tmp.payment, json.field; simpl.
    by destruct (json.decode_ptr_RawMessage v c).
  - unfold tmp.items, json.field; simpl.
    by destruct (json.decode_slice _ _ _ v d).
Qed.

Lemma member_Payment acc k v :
  tmp.Payment (fst (dm acc (k, v))) =
    if json.equalFold "payment" k then store_ptr (tmp.Payment (fst acc)) v
    else tmp.Payment (fst acc).
Proof.
  destruct acc as [[a b c d] e]. tmp_member k; try done.
  - unfold tmp.order_uid, json.field; simpl.
    by destruct (json.decode_string v a).
  - unfold tmp.delivery, json.field; simpl.
    by destruct (json.decode_ptr_RawMessage v b).
  - unfold tmp.payment, json.field, store_ptr; simpl.
    by destruct (json.decode_ptr_RawMessage v c).
  - unfold tmp.items, json.field; simpl.
    by destruct (json.decode_slice _ _ _ v d).
Qed.

Lemma member_Items acc k v :
  tmp.Items (fst (dm acc (k, v))) =
    if json.equalFold "items" k then store_items (tmp.Items (fst acc)) v
    else tmp.Items (fst acc).
Proof.
  destruct acc as [[a b c d] e]. tmp_member k; try done.
  - unfold tmp.order_uid, json.field; simpl.
    by destruct (json.decode_string v a).
  - unfold tmp.delivery, json.field; simpl.
    by destruct (json.decode_ptr_RawMessage v b).
  - unfold tmp.payment, json.field; simpl.
    by destruct (json.decode_ptr_RawMessage v c).
  - unfold tmp.items, json.field, store_items; simpl.
    by destruct (json.decode_slice _ _ _ v d).
Qed.

Lemma member_err acc k v :
  snd (dm acc (k, v)) = json.saveError (snd acc) (member_error k v).
Proof.
  destruct acc as [[a b c d] e]. unfold member_error. tmp_member k.
  - unfold tmp.order_uid, json.field; simpl. by destruct v.
  - unfold tmp.delivery, json.field; simpl.
    destruct v; simpl; by destruct e.
  - unfold tmp.payment, json.field; simpl.
    destruct v; simpl; by destruct e.
  - unfold tmp.items, json.field; simpl.
    destruct v as [| | | |js|]; simpl; try done.
    destruct js as [|j js]; [done|].
    pose proof (decode_elems_RawMessage (j :: js)
                  (json.elems d ++ json.spare d)) as [_ He].
    destruct (json.decode_elems _ _ (j :: js) _) as [[out rest] e'].
    simpl in *. by subst e'.
  - simpl. by destruct e.
Qed.

Lemma fold_section {A : Type} (name : string) (h : A -> json.value -> A)
    (proj : tmp.t * option error -> A) :
  (forall acc k v,
     proj (dm acc (k, v)) = if json.equalFold name k then h (proj acc) v else proj acc) ->
  forall ms acc,
    proj (fold_left dm ms acc) = fold_left h (section_values name ms) (proj acc).
Proof.
  intros Hstep ms. induction ms as [|[k v] ms IH]; intros acc; simpl; [done|].
  rewrite IH, Hstep. by destruct (json.equalFold name k).
Qed.

Lemma fold_err_None ms acc :
  snd (fold_left dm ms acc) = None <->
  snd acc = None /\
  Forall string_or_null (section_values "order_uid" ms) /\
  Forall array_or_null (section_values "items" ms).
Proof.
  revert acc. induction ms as [|[k v] ms IH]; intros acc; simpl.
  - naive_solver.
  - rewrite IH, member_err. unfold member_error.
    destruct (tmp_key_cases k) as
      [(H1 & H2 & H3 & H4)|[(H1 & H2 & H3 & H4)|[(H1 & H2 & H3 & H4)|
       [(H1 & H2 & H3 & H4)|(H1 & H2 & H3 & H4)]]]];
      rewrite ?H1, ?H2, ?H3, ?H4; rewrite ?Forall_cons;
      destruct (snd acc); destruct v; simpl; naive_solver.
Qed.

Lemma fold_err_Some ms acc e :
  snd (fold_left dm ms acc) = Some e ->
  snd acc = Some e \/ exists val ty, e = UnmarshalTypeError val ty.
Proof.
  revert acc. induction ms as [|[k v] ms IH]; intros acc; simpl; [by left|].
  intros H. apply IH in H as [H|H]; [|by right].
  rewrite member_err in H. unfold member_error in H.
  destruct (snd acc); [by left|]. simpl in H. right.
  destruct (json.equalFold "order_uid" k).
  - destruct v; simpl in H; try done; injection H as <-; by eexists _, _.
  - destruct (json.equalFold "items" k); [|done].
    destruct v; simpl in H; try done; injection H as <-; by eexists _, _.
Qed.

Lemma decode_tmp_Object ms :
  tmp.decode (json.Object ms) tmp.zero = fold_left dm ms (tmp.zero, None).
Proof. done. Qed.

Lemma decode_tmp_OrderUID ms :
  tmp.OrderUID (fst (tmp.decode (json.Object ms) tmp.zero))
  = fold_left store_uid (section_values "order_uid" ms) "".
Proof.
  rewrite decode_tmp_Object.
  by rewrite (fold_section "order_uid" store_uid (fun acc => tmp.OrderUID (fst acc)))
    by apply member_OrderUID.
Qed.

Lemma decode_tmp_Delivery ms :
  tmp.Delivery (fst (tmp.decode (json.Object ms) tmp.zero))
  = fold_left store_ptr (section_values "delivery" ms) None.
Proof.
  rewrite decode_tmp_Object.
  by rewrite (fold_section "delivery" store_ptr (fun acc => tmp.Delivery (fst acc)))
    by apply member_Delivery.
Qed.

Lemma decode_tmp_Payment ms :
  tmp.Payment (fst (tmp.decode (json.Object ms) tmp.zero))
  = fold_left store_ptr (section_values "payment" ms) None.
Proof.
  rewrite decode_tmp_Object.
  by rewrite (fold_section "payment" store_ptr (fun acc => tmp.Payment (fst acc)))
    by apply member_Payment.
Qed.

Lemma decode_tmp_Items ms :
  tmp.Items (fst (tmp.decode (json.Object ms) tmp.zero))
  = fold_left store_items (section_values "items" ms) json.nil.
Proof.
  rewrite decode_tmp_Object.
  by rewrite (fold_section "items" store_items (fun acc => tmp.Items (fst acc)))
    by apply member_Items.
Qed.

Lemma decode_tmp_err_None ms :
  snd (tmp.decode (json.Object ms) tmp.zero) = None <->
  Forall string_or_null (section_values "order_uid" ms) /\
  Forall array_or_null (section_values "items" ms).
Proof. rewrite decode_tmp_Object, fold_err_None. naive_solver. Qed.

(** A pointer field that is given at most one value is nil unless that
    value is there and is not [null]. *)
Lemma store_ptr_once (vs : list json.value) :
  (length vs <= 1)%nat ->
  fold_left store_ptr vs None <> None <->
  exists v, vs = [v] /\ v <> json.Null.
Proof.
  intros Hlen. destruct vs as [|v [|v' vs]]; simpl in *; [| |lia].
  - naive_solver.
  - unfold store_ptr. destruct v; simpl; naive_solver.
Qed.

Lemma len_store_items_Array cur js :
  json.len (store_items cur (json.Array js)) = length js.
Proof.
  unfold store_items, json.len. destruct js as [|j js]; [done|].
  cbn [json.decode_slice].
  pose proof (decode_elems_RawMessage (j :: js)
                (json.elems cur ++ json.spare cur)) as [Hout _].
  destruct (json.decode_elems _ _ (j :: js) _) as [[out rest] e'].
  simpl in *. by subst out.
Qed.

(** How [minimalValidateOrder] goes on a payload that is well formed. *)
Lemma minimalValidateOrder_parsed payload j :
  json.parse payload = Some j ->
  minimalValidateOrder payload =
    let '(t, err) := tmp.decode j tmp.zero in
    match err with
    | Some e => inl e
    | None =>
        if decide (tmp.OrderUID t = "") then inl (errorString "missing order_uid")
        else if bool_decide (tmp.Delivery t = None)
                || bool_decide (tmp.Payment t = None)
                || bool_decide (json.len (tmp.Items t) = 0%nat)
        then inl (errorString "missing required nested fields")
        else inr (tmp.OrderUID t)
    end.
Proof.
  intros Hp. unfold minimalValidateOrder, json.Valid, json.Unmarshal.
  by rewrite Hp.
Qed.

Lemma minimalValidateOrder_invalid payload :
  json.parse payload = None ->
  minimalValidateOrder payload = inl (errorString "invalid JSON").
Proof.
  intros Hp. unfold minimalValidateOrder, json.Valid. by rewrite Hp.
Qed.

End validator.

(** C2, as the claim has it, fails in both directions on payloads that give
    a section under two spellings of its name, which encoding/json takes for
    the same field.  The first payload is well-formed JSON, has the
    identifier A1, a delivery and a payment that are not [null] and the
    items [[1]]; the member ITEMS that follows empties the field, and the
    payload is dropped.  The second has [null] for delivery; the member
    DELIVERY that follows sets the field, and the payload is accepted. *)
Lemma minimalValidateOrder_section_given_twice :
  let dropped :=
    js "{'order_uid':'A1','delivery':{},'payment':{},'items':[1],'ITEMS':[]}" in
  let accepted :=
    js "{'order_uid':'A1','delivery':null,'DELIVERY':{},'payment':{},'items':[1]}" in
  (json.parse dropped =
     Some (json.Object
             [("order_uid", json.String_ "A1"); ("delivery", json.Object []);
              ("payment", json.Object []);
              ("items", json.Array [json.Number "1"]);
              ("ITEMS", json.Array [])]) /\
   minimalValidateOrder dropped
   = inl (errorString "missing required nested fields")) /\
  (json.parse accepted =
     Some (json.Object
             [("order_uid", json.String_ "A1"); ("delivery", json.Null);
              ("DELIVERY", json.Object []); ("payment", json.Object []);
              ("items", json.Array [json.Number "1"])]) /\
   minimalValidateOrder accepted = inr "A1").
Proof. vm_compute. repeat split; reflexivity. Qed.

(** C2, amended.  A payload that is a well-formed JSON object and gives
    order_uid exactly once, as a string that is not empty, and delivery,
    payment and items at most once each, names being compared as
    encoding/json compares them, up to case: the validator returns that
    order_uid exactly when delivery is there and not [null], payment is there
    and not [null], and items is there and is an array with at least one
    element.  What delivery and payment hold is not looked at (an empty
    object will do); an empty array of items fails. *)
Theorem minimalValidateOrder_sections (payload : string)
    (ms : list (string * json.value)) (uid : string) :
  json.parse payload = Some (json.Object ms) ->
  section_values "order_uid" ms = [json.String_ uid] ->
  uid <> "" ->
  (length (section_values "delivery" ms) <= 1)%nat ->
  (length (section_values "payment" ms) <= 1)%nat ->
  (length (section_values "items" ms) <= 1)%nat ->
  minimalValidateOrder payload = inr uid <->
    (exists v, section_values "delivery" ms = [v] /\ v <> json.Null) /\
    (exists v, section_values "payment" ms = [v] /\ v <> json.Null) /\
    (exists e es, section_values "items" ms = [json.Array (e :: es)]).
Proof.
  intros Hp Huid Hne Hd Hpay Hit.
  rewrite (minimalValidateOrder_parsed _ _ Hp).
  pose proof (decode_tmp_OrderUID ms) as HU.
  pose proof (decode_tmp_Delivery ms) as HD.
  pose proof (decode_tmp_Payment ms) as HP.
  pose proof (decode_tmp_Items ms) as HI.
  pose proof (decode_tmp_err_None ms) as HE.
  destruct (tmp.decode (json.Object ms) tmp.zero) as [t err]. simpl in *.
  rewrite Huid in HU, HE. simpl in HU. unfold store_uid in HU; simpl in HU.
  rewrite <- (store_ptr_once _ Hd), <- (store_ptr_once _ Hpay), <- HD, <- HP.
  assert (Hitems : err = None /\ json.len (tmp.Items t) <> 0%nat <->
          exists e es, section_values "items" ms = [json.Array (e :: es)]).
  { rewrite HE, HI. destruct (section_values "items" ms) as [|v [|v' vs]];
      simpl in *; [| |lia].
    - split; [intros [_ H]; by destruct H|intros (e & es & H); done].
    - split.
      + intros [[_ Hf] Hlen]. apply Forall_cons in Hf as [Hv _].
        destruct v as [| | | |[|e es]|]; simpl in *; try done. by eexists _, _.
      + intros (e & es & [= ->]). split.
        * split; [by apply Forall_cons|]. by apply Forall_cons.
        * by rewrite len_store_items_Array. }
  rewrite <- Hitems. subst uid.
  destruct err as [e|].
  { split; [done|]. by intros (_ & _ & [? _]). }
  destruct (decide (tmp.OrderUID t = "")) as [|_]; [done|].
  destruct (decide (tmp.Delivery t = None)) as [HDn|HDn].
  { rewrite (bool_decide_eq_true_2 _ HDn). simpl. naive_solver. }
  rewrite (bool_decide_eq_false_2 _ HDn).
  destruct (decide (tmp.Payment t = None)) as [HPn|HPn].
  { rewrite (bool_decide_eq_true_2 _ HPn). simpl. naive_solver. }
  rewrite (bool_decide_eq_false_2 _ HPn).
  destruct (decide (json.len (tmp.Items t) = 0%nat)) as [HIn|HIn].
  { rewrite (bool_decide_eq_true_2 _ HIn). simpl. naive_solver. }
  rewrite (bool_decide_eq_false_2 _ HIn). simpl. naive_solver.
Qed.

Lemma minimalValidateOrder_sections_witness :
  let payload := js "{'order_uid':'A1','delivery':{},'payment':{},'items':[{'x':1}]}" in
  let ms := [("order_uid", json.String_ "A1"); ("delivery", json.Object []);
             ("payment", json.Object []);
             ("items", json.Array [json.Object [("x", json.Number "1")]])] in
  minimalValidateOrder payload = inr "A1" <->
    (exists v, section_values "delivery" ms = [v] /\ v <> json.Null) /\
    (exists v, section_values "payment" ms = [v] /\ v <> json.Null) /\
    (exists e es, section_values "items" ms = [json.Array (e :: es)]).
Proof.
  intros payload ms. apply minimalValidateOrder_sections.
  - vm_compute. reflexivity.
  - vm_compute. reflexivity.
  - discriminate.
  - vm_compute. lia.
  - vm_compute. lia.
  - vm_compute. lia.
Defined.

(** The scenarios of the specification and the cases of main_test.go. *)

Example validate_scenario_ok :
  minimalValidateOrder
    (js "{'order_uid':'A1','delivery':{},'payment':{},'items':[{'x':1}]}")
  = inr "A1".
Proof. vm_compute. reflexivity. Qed.

Example validate_scenario_no_items :
  minimalValidateOrder
    (js "{'order_uid':'A1','delivery':{},'payment':{},'items':[]}")
  = inl (errorString "missing required nested fields").
Proof. vm_compute. reflexivity. Qed.

Example validate_test_InvalidJSON :
  minimalValidateOrder "not json" = inl (errorString "invalid JSON").
Proof. vm_compute. reflexivity. Qed.

Example validate_test_MissingID :
  minimalValidateOrder (js "{ 'delivery': {}, 'payment': {}, 'items': [{}] }")
  = inl (errorString "missing order_uid").
Proof. vm_compute. reflexivity. Qed.

Example validate_test_MissingNested :
  minimalValidateOrder
    (js "{ 'order_uid': 'x', 'delivery': {'x':1}, 'payment': null, 'items': [] }")
  = inl (errorString "missing required nested fields").
Proof. vm_compute. reflexivity. Qed.

(** Names are matched up to case. *)
Example validate_names_fold :
  minimalValidateOrder
    (js "{'Order_UID':'A1','DELIVERY':{},'Payment':0,'Items':[null]}")
  = inr "A1".
Proof. vm_compute. reflexivity. Qed.

(** A name given twice: the later value is the one stored, and a value of
    the wrong type fails the payload whatever comes after it. *)
Example validate_name_twice_last :
  minimalValidateOrder
    (js "{'order_uid':'A1','delivery':{},'payment':{},'items':[1],'items':[]}")
  = inl (errorString "missing required nested fields").
Proof. vm_compute. reflexivity. Qed.

Example validate_name_twice_type_error :
  minimalValidateOrder
    (js "{'order_uid':'A1','delivery':{},'payment':{},'items':{},'items':[1]}")
  = inl (UnmarshalTypeError "object" "[]json.RawMessage").
Proof. vm_compute. reflexivity. Qed.

(** C7, as the claim has it, fails: this payload is well-formed JSON, has
    the identifier A1, a delivery and a payment that are not [null] and
    items that are neither missing nor [null] nor empty; validation fails
    on it with the type error of [json.Unmarshal], which is the error of none
    of the three classes. *)
Lemma minimalValidateOrder_fourth_failure :
  let payload := js "{'order_uid':'A1','delivery':{},'payment':{},'items':{'x':1}}" in
  json.parse payload =
    Some (json.Object
            [("order_uid", json.String_ "A1"); ("delivery", json.Object []);
             ("payment", json.Object []);
             ("items", json.Object [("x", json.Number "1")])]) /\
  minimalValidateOrder payload
    = inl (UnmarshalTypeError "object" "[]json.RawMessage") /\
  ~ fails_in_three_classes payload.
Proof.
  intros payload. split; [vm_compute; reflexivity|].
  assert (He : minimalValidateOrder payload
               = inl (UnmarshalTypeError "object" "[]json.RawMessage"))
    by (vm_compute; reflexivity).
  split; [exact He|]. intros H. destruct (H _ He) as [[] Hc]; discriminate Hc.
Qed.

(** C7, amended. A failure of validation is one of four: "invalid JSON", on
    a payload that is not well-formed JSON; "missing order_uid", on a
    well-formed payload that decodes with an empty order_uid; "missing
    required nested fields", on a well-formed payload that decodes with an
    order_uid and with delivery nil, payment nil or no items; or the type
    error of [json.Unmarshal], on a well-formed payload that is neither an
    object nor [null], or whose order_uid is neither a string nor [null], or
    whose items are neither an array nor [null]. *)
Theorem minimalValidateOrder_failure_classes (payload : string) (e : error) :
  minimalValidateOrder payload = inl e ->
  (e = class_error MalformedPayload /\ json.parse payload = None) \/
  (e = class_error MissingIdentifier /\
   exists j t, json.parse payload = Some j /\
     tmp.decode j tmp.zero = (t, None) /\ tmp.OrderUID t = "") \/
  (e = class_error MissingRequiredSections /\
   exists j t, json.parse payload = Some j /\
     tmp.decode j tmp.zero = (t, None) /\ tmp.OrderUID t <> "" /\
     (tmp.Delivery t = None \/ tmp.Payment t = None \/
      json.len (tmp.Items t) = 0%nat)) \/
  (exists val ty j, e = UnmarshalTypeError val ty /\
     json.parse payload = Some j /\ type_mismatch j).
Proof.
  intros H. destruct (json.parse payload) as [j|] eqn:Hp.
  2:{ left. rewrite minimalValidateOrder_invalid in H by done.
      by injection H as <-. }
  right. rewrite (minimalValidateOrder_parsed _ _ Hp) in H.
  destruct (tmp.decode j tmp.zero) as [t err] eqn:Hdec.
  destruct err as [e'|].
  - right; right. injection H as <-.
    assert (exists val ty, e' = UnmarshalTypeError val ty /\ type_mismatch j)
      as (val & ty & -> & Hm); [|by eexists _, _, _].
    destruct j as [| | | | |ms]; try (injection Hdec as _ <-; by eexists _, _).
    + discriminate Hdec.
    + pose proof (decode_tmp_err_None ms) as HE.
      pose proof (fold_err_Some ms (tmp.zero, None) e') as HS.
      rewrite <- decode_tmp_Object, Hdec in HS. rewrite Hdec in HE.
      destruct (HS eq_refl) as [?|(val & ty & ->)]; [done|].
      exists val, ty. split; [done|]. simpl.
      destruct (decide (Forall string_or_null (section_values "order_uid" ms)))
        as [Hu|Hu]; [|left; exact (not_Forall_Exists string_or_null _ Hu)].
      destruct (decide (Forall array_or_null (section_values "items" ms)))
        as [Hi|Hi]; [|right; exact (not_Forall_Exists array_or_null _ Hi)].
      discriminate (proj2 HE (conj Hu Hi)).
  - destruct (decide (tmp.OrderUID t = "")) as [Hu|Hu].
    + left. injection H as <-. split; [done|]. by exists j, t.
    + right; left.
      destruct (bool_decide (tmp.Delivery t = None)) eqn:Hd;
        [|destruct (bool_decide (tmp.Payment t = None)) eqn:Hpay;
          [|destruct (bool_decide (json.len (tmp.Items t) = 0%nat)) eqn:Hi]];
        simpl in H; try discriminate H; injection H as <-;
        (split; [done|]); exists j, t; repeat split; try done.
      * left. by apply bool_decide_eq_true in Hd.
      * right; left. by apply bool_decide_eq_true in Hpay.
      * right; right. by apply bool_decide_eq_true in Hi.
Qed.

Lemma minimalValidateOrder_failure_classes_witness :
  let payload := js "{'order_uid':'A1','delivery':{},'payment':{},'items':{'x':1}}" in
  let e := UnmarshalTypeError "object" "[]json.RawMessage" in
  (e = class_error MalformedPayload /\ json.parse payload = None) \/
  (e = class_error MissingIdentifier /\
   exists j t, json.parse payload = Some j /\
     tmp.decode j tmp.zero = (t, None) /\ tmp.OrderUID t = "") \/
  (e = class_error MissingRequiredSections /\
   exists j t, json.parse payload = Some j /\
     tmp.decode j tmp.zero = (t, None) /\ tmp.OrderUID t <> "" /\
     (tmp.Delivery t = None \/ tmp.Payment t = None \/
      json.len (tmp.Items t) = 0%nat)) \/
  (exists val ty j, e = UnmarshalTypeError val ty /\
     json.parse payload = Some j /\ type_mismatch j).
Proof.
  intros payload e. apply minimalValidateOrder_failure_classes.
  vm_compute. reflexivity.
Defined.

(** * The rest of the service *)

Section store_more.

Implicit Types (s : Store) (env : Env) (id p : string).

(** Whatever the database answers, [Upsert] leaves the store as it was or
    as the statement and the write to the cache make it. *)
Lemma Upsert_store env id p s :
  store_of (Upsert env id p s) =
    match fault env with
    | Some _ => s
    | None => mkStore (insert_on_conflict_update (now env) id p (db s))
                      (<[id := p]> (cache s))
    end.
Proof.
  destruct (fault env) as [e|] eqn:Hf.
  - by rewrite (Upsert_fails _ _ _ _ e).
  - by rewrite Upsert_ok.
Qed.

Lemma created_at_insert_on_conflict_update t id p tbl :
  created_at <$> insert_on_conflict_update t id p tbl !! id
  = Some (match tbl !! id with Some r => created_at r | None => t end).
Proof.
  unfold insert_on_conflict_update.
  destruct (tbl !! id); by rewrite lookup_insert_eq.
Qed.

Lemma payload_insert_on_conflict_update t id p tbl :
  payload <$> insert_on_conflict_update t id p tbl = <[id := p]> (payload <$> tbl).
Proof.
  unfold insert_on_conflict_update.
  destruct (tbl !! id); by rewrite fmap_insert.
Qed.

Lemma insert_on_conflict_update_comm t1 t2 id1 id2 p1 p2 tbl :
  id1 <> id2 ->
  insert_on_conflict_update t2 id2 p2 (insert_on_conflict_update t1 id1 p1 tbl)
  = insert_on_conflict_update t1 id1 p1 (insert_on_conflict_update t2 id2 p2 tbl).
Proof.
  intros Hne. unfold insert_on_conflict_update at 1 3.
  rewrite !lookup_insert_on_conflict_update_ne by done.
  unfold insert_on_conflict_update.
  destruct (tbl !! id1), (tbl !! id2); by apply insert_insert_ne.
Qed.

End store_more.

Lemma lookup_insert_on_conflict_update_eq t id p tbl :
  insert_on_conflict_update t id p tbl !! id
  = Some (mkRow p (match tbl !! id with Some r => created_at r | None => t end)).
Proof.
  unfold insert_on_conflict_update.
  destruct (tbl !! id); by rewrite lookup_insert_eq.
Qed.

(** Looking up a row after some statements. *)
Ltac lookup_rows :=
  repeat first
    [ rewrite lookup_insert_on_conflict_update_eq
    | rewrite lookup_insert_on_conflict_update_ne by (assumption || congruence) ].

(** X1. [Upsert] for an identifier touches nothing else: whatever the
    database answers, the row and the cache entry of every other identifier
    are what they were. *)
Theorem Upsert_frame (env : Env) (id id' p : string) (s : Store) :
  id <> id' ->
  db (store_of (Upsert env id p s)) !! id' = db s !! id' /\
  Get (store_of (Upsert env id p s)) id' = Get s id'.
Proof.
  intros Hne. rewrite Upsert_store. destruct (fault env); [done|].
  unfold Get; simpl. split.
  - by apply lookup_insert_on_conflict_update_ne.
  - by apply lookup_insert_ne.
Qed.

Lemma Upsert_frame_witness :
  let s := mkStore {["B2" := mkRow "[]" 3]} {["B2" := "[]"]} in
  db (store_of (Upsert (mkEnv 7 None) "A1" "{}" s)) !! "B2" = db s !! "B2" /\
  Get (store_of (Upsert (mkEnv 7 None) "A1" "{}" s)) "B2" = Get s "B2".
Proof. intros s. apply Upsert_frame. discriminate. Defined.

(** X2. The creation time of a row is the time of the first upsert of its
    identifier: an [Upsert] that goes through gives a new row the current
    time and leaves the created_at of a row that exists as it is. *)
Theorem Upsert_created_at (env : Env) (id p : string) (s : Store) :
  fault env = None ->
  created_at <$> db (store_of (Upsert env id p s)) !! id
  = Some (match db s !! id with Some r => created_at r | None => now env end).
Proof.
  intros Hf. rewrite Upsert_store, Hf. simpl.
  apply created_at_insert_on_conflict_update.
Qed.

Lemma Upsert_created_at_witness :
  let s := mkStore {["A1" := mkRow "[]" 3]} {["A1" := "[]"]} in
  created_at <$> db (store_of (Upsert (mkEnv 7 None) "A1" "{}" s)) !! "A1"
  = Some (match db s !! "A1" with Some r => created_at r | None => 7%Z end).
Proof. intros s. apply Upsert_created_at. reflexivity. Defined.

(** X3. Upserts of different identifiers commute in all but the creation
    time of a row that one of them creates.  Whatever the server times of
    the four statements, and whichever of the two upserts the database
    executes, the cache, the payload of every row and every row that was
    there before end up the same in either order; a row that an upsert
    creates has the time at which that upsert ran, which is the earlier one
    in one order and the later one in the other. *)
Theorem Upsert_comm (ta tb ta' tb' : Z) (f1 f2 : option error)
    (id1 id2 p1 p2 : string) (s : Store) :
  id1 <> id2 ->
  let a := store_of (Upsert (mkEnv tb f2) id2 p2
                       (store_of (Upsert (mkEnv ta f1) id1 p1 s))) in
  let b := store_of (Upsert (mkEnv tb' f1) id1 p1
                       (store_of (Upsert (mkEnv ta' f2) id2 p2 s))) in
  cache a = cache b /\
  payload <$> db a = payload <$> db b /\
  (forall id, is_Some (db s !! id) -> db a !! id = db b !! id) /\
  (f1 = None -> db s !! id1 = None ->
     db a !! id1 = Some (mkRow p1 ta) /\ db b !! id1 = Some (mkRow p1 tb')) /\
  (f2 = None -> db s !! id2 = None ->
     db a !! id2 = Some (mkRow p2 tb) /\ db b !! id2 = Some (mkRow p2 ta')).
Proof.
  intros Hne a b. subst a b. rewrite !Upsert_store. cbn [now fault].
  assert (Hne' : id2 <> id1) by done.
  split; [|split; [|split; [|split]]].
  - destruct f1, f2; cbn [cache]; try done. by apply insert_insert_ne.
  - destruct f1, f2; cbn [db]; rewrite ?payload_insert_on_conflict_update;
      try done.
    by apply insert_insert_ne.
  - intros id [r Hr].
    destruct (decide (id = id1)) as [->|H1];
      [|destruct (decide (id = id2)) as [->|H2]];
      destruct f1, f2; cbn [db]; lookup_rows; by rewrite ?Hr.
  - intros -> Hnew. destruct f2; cbn [db]; lookup_rows; by rewrite ?Hnew.
  - intros -> Hnew. destruct f1; cbn [db]; lookup_rows; by rewrite ?Hnew.
Qed.

Lemma Upsert_comm_witness :
  let s := mkStore {["A1" := mkRow "[]" 3]} {["A1" := "[]"]} in
  let a := store_of (Upsert (mkEnv 8 None) "B2" "[]"
                       (store_of (Upsert (mkEnv 7 None) "A1" "{}" s))) in
  let b := store_of (Upsert (mkEnv 8 None) "A1" "{}"
                       (store_of (Upsert (mkEnv 7 None) "B2" "[]" s))) in
  cache a = cache b /\
  payload <$> db a = payload <$> db b /\
  (forall id, is_Some (db s !! id) -> db a !! id = db b !! id) /\
  (@None error = None -> db s !! "A1" = None ->
     db a !! "A1" = Some (mkRow "{}" 7) /\ db b !! "A1" = Some (mkRow "{}" 8)) /\
  (@None error = None -> db s !! "B2" = None ->
     db a !! "B2" = Some (mkRow "[]" 8) /\ db b !! "B2" = Some (mkRow "[]" 7)).
Proof.
  intros s.
  apply (Upsert_comm 7 8 7 8 None None "A1" "B2" "{}" "[]" s). discriminate.
Defined.

Section bootstrap_more.

Implicit Types (s : Store) (l : list (string * string)).

Lemma load_rows_until_scan_fails l e rest n s :
  load_rows ((inr <$> l) ++ inl e :: rest) n s =
    ((Some e, (n + length l)%nat),
     mkStore (db s) (foldl (fun c r => <[fst r := snd r]> c) (cache s) l),
     (fun r => EvCacheSet (fst r) (snd r)) <$> l).
Proof.
  revert n s. induction l as [|[k v] l IH]; intros n s; simpl.
  - unfold ret. rewrite Nat.add_0_r. by destruct s.
  - unfold bind, cache_set. rewrite IH. simpl.
    replace (S (n + length l)) with (n + S (length l))%nat by lia. done.
Qed.

(** What is in a cache after rows were put into it was there before or is
    one of the rows. *)
Lemma foldl_cache_set_lookup l (c : gmap string string) id p :
  foldl (fun c r => <[fst r := snd r]> c) c l !! id = Some p ->
  c !! id = Some p \/ (id, p) ∈ l.
Proof.
  revert c. induction l as [|[k v] l IH]; intros c; simpl; [by left|].
  intros H. apply IH in H as [H|H]; [|right; by apply elem_of_cons; right].
  destruct (decide (k = id)) as [->|Hne].
  - rewrite lookup_insert_eq in H. injection H as ->. right. by left.
  - rewrite lookup_insert_ne in H by done. by left.
Qed.

Lemma elem_of_rows (tbl : gmap string Row) id p :
  (id, p) ∈ (fun r => (fst r, payload (snd r))) <$> map_to_list tbl ->
  payload <$> tbl !! id = Some p.
Proof.
  intros H. apply list_elem_of_fmap in H as ([k r] & [= -> ->] & Hin).
  apply elem_of_map_to_list in Hin. by rewrite Hin.
Qed.

(** The store after [LoadCache], whatever the query does: the table as it
    was and the cache with the rows that were fetched put into it. *)
Lemma LoadCache_store q s :
  exists l, l `sublist_of` (fun r => (fst r, payload (snd r))) <$> map_to_list (db s) /\
    store_of (LoadCache q s)
    = mkStore (db s) (foldl (fun c r => <[fst r := snd r]> c) (cache s) l).
Proof.
  destruct q as [|e|n e|n e].
  - eexists. split; [reflexivity|].
    unfold LoadCache, db_Query; simpl. unfold bind.
    rewrite fetched_all, load_rows_fetched. done.
  - exists []. split; [apply sublist_nil_l|]. by destruct s.
  - eexists. split; [apply (sublist_take _ n)|].
    unfold LoadCache, db_Query; simpl. unfold bind.
    rewrite fetched_all, <- fmap_take, load_rows_until_scan_fails. done.
  - eexists. split; [apply (sublist_take _ n)|].
    unfold LoadCache, db_Query; simpl. unfold bind.
    rewrite fetched_all, <- fmap_take, load_rows_fetched. done.
Qed.

Lemma LoadCache_result q s :
  result (LoadCache q s) =
    match q with
    | QueryOk => None
    | QueryFails e | ScanFails _ e | RowsBroken _ e => Some e
    end.
Proof.
  destruct q as [|e|n e|n e].
  - by rewrite LoadCache_ok.
  - done.
  - unfold LoadCache, db_Query; simpl. unfold bind.
    rewrite fetched_all, <- fmap_take, load_rows_until_scan_fails. done.
  - unfold LoadCache, db_Query; simpl. unfold bind.
    rewrite fetched_all, <- fmap_take, load_rows_fetched. done.
Qed.

End bootstrap_more.

(** X4. [LoadCache] on a store whose cache is not empty, when the query goes
    through: it returns nil and leaves the table alone; afterwards [Get]
    returns the payload of the row for every identifier that has a row,
    whatever the cache held for it, and what the cache held for the others;
    the last thing it does is log the number of rows. *)
Theorem LoadCache_rows_over_cache (s : Store) :
  let r := LoadCache QueryOk s in
  result r = None /\
  db (store_of r) = db s /\
  (forall id, Get (store_of r) id =
     match db s !! id with
     | Some row => Some (payload row)
     | None => Get s id
     end) /\
  last (trace r) = Some (EvLog (cache_restored (size (db s)))).
Proof.
  intros r. subst r. rewrite LoadCache_ok.
  unfold result, store_of, trace, Get; simpl. repeat split.
  - intros id. rewrite lookup_union, lookup_fmap.
    destruct (db s !! id) as [row|]; simpl.
    + by destruct (cache s !! id).
    + by destruct (cache s !! id).
  - by rewrite last_snoc.
Qed.

(** X5. [LoadCache], whatever the query does: it returns nil exactly when
    the query and the iteration go through, it never changes the table, and
    every entry the cache has afterwards was there before or is the payload
    of the row of its identifier; when the query itself fails, nothing is
    touched and nothing is logged. *)
Theorem LoadCache_any_outcome (q : QueryFault) (s : Store) :
  let r := LoadCache q s in
  (result r = None <-> q = QueryOk) /\
  db (store_of r) = db s /\
  (forall id p, Get (store_of r) id = Some p ->
     Get s id = Some p \/ payload <$> db s !! id = Some p) /\
  (forall e, q = QueryFails e -> store_of r = s /\ trace r = []).
Proof.
  intros r. subst r. split; [|split; [|split]].
  - rewrite LoadCache_result. destruct q; naive_solver.
  - destruct (LoadCache_store q s) as (l & _ & ->). done.
  - destruct (LoadCache_store q s) as (l & Hl & ->). unfold Get; simpl.
    intros id p H. apply foldl_cache_set_lookup in H as [H|H]; [by left|right].
    apply elem_of_rows. by eapply elem_of_sublist.
  - intros e ->. by destruct s.
Qed.

(** X6. [newStore] in closed form: it fails with the error of the first
    step that fails (the connection string, the pool, the DDL, then the
    query, a scan or the iteration of [LoadCache]) and hands out a store
    only when none does, and then the store has the table as it is and the
    payload of every row in the cache; a store with a partly loaded cache
    never gets out. *)
Theorem newStore_closed_form (env : StartEnv) :
  newStore env =
    match ParseConfig_err env, NewWithConfig_err env, initDB_err env with
    | Some e, _, _ => inl e
    | None, Some e, _ => inl e
    | None, None, Some e => inl e
    | None, None, None =>
        match query_fault env with
        | QueryOk => inr (mkStore (orders env) (payload <$> orders env))
        | QueryFails e | ScanFails _ e | RowsBroken _ e => inl e
        end
    end.
Proof.
  unfold newStore.
  destruct (ParseConfig_err env); [done|].
  destruct (NewWithConfig_err env); [done|].
  change (result (initDB env (mkStore (orders env) ∅))) with (initDB_err env).
  destruct (initDB_err env); [done|].
  rewrite LoadCache_result.
  destruct (query_fault env); try done.
  rewrite LoadCache_ok. unfold store_of; simpl.
  by rewrite (right_id_L ∅ (∪)).
Qed.

(** X7. Loading twice is loading once: a second [LoadCache] that goes
    through changes nothing in the store the first one left. *)
Theorem LoadCache_idempotent (s : Store) :
  store_of (LoadCache QueryOk (store_of (LoadCache QueryOk s)))
  = store_of (LoadCache QueryOk s).
Proof.
  rewrite !LoadCache_ok. unfold store_of; simpl. f_equal.
  by rewrite (assoc_L (∪)), (idemp_L (∪)).
Qed.

Section pipeline_more.

Implicit Types (s : Store) (env : Env) (m : Msg) (ms : list (Env * Msg)).

(** The identifier the validator returns is never empty. *)
Lemma minimalValidateOrder_id_nonempty payload id :
  minimalValidateOrder payload = inr id -> id <> "".
Proof.
  unfold minimalValidateOrder. destruct (negb (json.Valid payload)); [done|].
  destruct (json.Unmarshal tmp.decode payload tmp.zero) as [t [e|]]; [done|].
  destruct (decide (tmp.OrderUID t = "")) as [|Hne]; [done|].
  destruct (_ || _); [done|]. by intros [= <-].
Qed.

Lemma handle_outcome env m s :
  handle env m s =
    match outcome env m with
    | Dropped vErr =>
        (tt, s, [EvLog (drop_invalid_msg (Sequence m) vErr); EvAck (Sequence m)])
    | Failed id e =>
        (tt, s, [EvExec id (Data m) (Some e);
                 EvLog (db_upsert_failed (Sequence m) id e)])
    | Stored id =>
        (tt,
         mkStore (insert_on_conflict_update (now env) id (Data m) (db s))
                 (<[id := Data m]> (cache s)),
         [EvExec id (Data m) None; EvCacheSet id (Data m);
          EvAck (Sequence m); EvLog (stored_order id (Sequence m))])
    end.
Proof.
  unfold outcome.
  destruct (minimalValidateOrder (Data m)) as [vErr|id] eqn:Hv.
  - by apply handle_invalid.
  - destruct (fault env) as [e|] eqn:Hf.
    + by apply handle_upsert_fails.
    + rewrite (handle_stored _ _ _ id) by done. by rewrite Upsert_ok.
Qed.

Lemma store_of_deliver_cons env m ms s :
  store_of (deliver ((env, m) :: ms) s)
  = store_of (deliver ms (store_of (handle env m s))).
Proof.
  simpl. unfold bind. destruct (handle env m s) as [[[] s1] t1].
  unfold store_of; simpl. by destruct (deliver ms s1) as [[[] s2] t2].
Qed.

Lemma trace_deliver_cons env m ms s :
  trace (deliver ((env, m) :: ms) s)
  = trace (handle env m s) ++ trace (deliver ms (store_of (handle env m s))).
Proof.
  simpl. unfold bind. destruct (handle env m s) as [[[] s1] t1].
  unfold store_of, trace; simpl.
  by destruct (deliver ms s1) as [[[] s2] t2].
Qed.

Lemma deliver_cache_fold ms s :
  cache (store_of (deliver ms s))
  = foldl (fun c r => <[fst r := snd r]> c) (cache s) (accepted ms).
Proof.
  revert s. induction ms as [|[env m] ms IH]; intros s; [done|].
  rewrite store_of_deliver_cons, IH, handle_outcome. unfold accepted; simpl.
  by destruct (outcome env m).
Qed.

Lemma deliver_db_fold ms s :
  payload <$> db (store_of (deliver ms s))
  = foldl (fun c r => <[fst r := snd r]> c) (payload <$> db s) (accepted ms).
Proof.
  revert s. induction ms as [|[env m] ms IH]; intros s; [done|].
  rewrite store_of_deliver_cons, IH, handle_outcome. unfold accepted; simpl.
  destruct (outcome env m); try done.
  unfold store_of; simpl. by rewrite payload_insert_on_conflict_update.
Qed.

Lemma elem_of_accepted ms id p :
  (id, p) ∈ accepted ms -> minimalValidateOrder p = inr id.
Proof.
  unfold accepted. intros H. apply list_elem_of_omap in H as ([env m] & _ & H).
  simpl in H. unfold outcome in H.
  destruct (minimalValidateOrder (Data m)) as [|id'] eqn:Hv; [done|].
  destruct (fault env); [done|]. injection H as <- <-. done.
Qed.

Lemma handle_rows_stay env m s id r :
  db s !! id = Some r ->
  exists r', db (store_of (handle env m s)) !! id = Some r' /\
             created_at r' = created_at r.
Proof.
  intros Hr. rewrite handle_outcome.
  destruct (outcome env m) as [| |id']; try by exists r.
  unfold store_of; simpl. destruct (decide (id' = id)) as [->|Hne].
  - unfold insert_on_conflict_update. rewrite Hr, lookup_insert_eq.
    by eexists.
  - rewrite lookup_insert_on_conflict_update_ne by done. by exists r.
Qed.

Lemma handle_dom env m s :
  dom (cache s) = dom (db s) ->
  dom (cache (store_of (handle env m s))) = dom (db (store_of (handle env m s))).
Proof.
  intros Hdom. rewrite handle_outcome.
  destruct (outcome env m) as [| |id]; try done.
  unfold store_of; simpl. rewrite dom_insert_L, Hdom.
  unfold insert_on_conflict_update.
  destruct (db s !! id); by rewrite dom_insert_L.
Qed.

End pipeline_more.

(** X8. What a run of the pipeline does to the store is what the stored
    messages do, in the order they came: the cache, and the payloads of the
    table, are those before the run with the order of every message that
    validated and whose upsert went through put in, a later one over an
    earlier one; dropped messages and failed upserts leave no mark. *)
Theorem deliver_is_fold_of_accepted (ms : list (Env * Msg)) (s : Store) :
  let s' := store_of (deliver ms s) in
  cache s' = foldl (fun c r => <[fst r := snd r]> c) (cache s) (accepted ms) /\
  payload <$> db s'
    = foldl (fun c r => <[fst r := snd r]> c) (payload <$> db s) (accepted ms).
Proof. split; [apply deliver_cache_fold|apply deliver_db_fold]. Qed.

(** X9. From start-up on, through any run, the cache has an entry for
    exactly the identifiers the table has a row for. *)
Theorem service_cache_covers_table (start : StartEnv) (ms : list (Env * Msg))
    (s : Store) :
  newStore start = inr s ->
  dom (cache (store_of (deliver ms s))) = dom (db (store_of (deliver ms s))).
Proof.
  intros Hs. apply newStore_ok in Hs as ->.
  assert (Hdom : dom (cache (mkStore (orders start) (payload <$> orders start)))
                 = dom (db (mkStore (orders start) (payload <$> orders start))))
    by (simpl; apply dom_fmap_L).
  revert Hdom. generalize (mkStore (orders start) (payload <$> orders start)).
  induction ms as [|[env m] ms IH]; intros s Hdom; [done|].
  rewrite store_of_deliver_cons. apply IH. by apply handle_dom.
Qed.

Lemma service_cache_covers_table_witness :
  let start := mkStartEnv None None None QueryOk {["B2" := mkRow "[]" 9]} in
  let s := mkStore {["B2" := mkRow "[]" 9]} {["B2" := "[]"]} in
  let ms := [(mkEnv 10 None,
              mkMsg 1 (js "{'order_uid':'A1','delivery':{},'payment':{},'items':[1]}"));
             (mkEnv 11 None, mkMsg 2 "not json")] in
  dom (cache (store_of (deliver ms s))) = dom (db (store_of (deliver ms s))).
Proof.
  intros start s ms. apply (service_cache_covers_table start).
  vm_compute. reflexivity.
Defined.

(** X10. What the pipeline puts in the cache is a payload that validates,
    under the identifier the validator returned for it; nothing is ever
    stored, in the cache or in the table, under the empty identifier. *)
Theorem deliver_entries_validate (ms : list (Env * Msg)) (s : Store) :
  let s' := store_of (deliver ms s) in
  (forall id p, Get s' id = Some p ->
     Get s id = Some p \/ minimalValidateOrder p = inr id) /\
  Get s' "" = Get s "" /\
  payload <$> db s' !! "" = payload <$> db s !! "".
Proof.
  intros s'. subst s'.
  assert (Hfold : forall (c : gmap string string),
    foldl (fun c r => <[fst r := snd r]> c) c (accepted ms) !! "" = c !! "").
  { intros c. destruct (foldl _ c (accepted ms) !! "") as [p|] eqn:H.
    - apply foldl_cache_set_lookup in H as [H|H]; [done|].
      apply elem_of_accepted, minimalValidateOrder_id_nonempty in H. done.
    - destruct (c !! "") as [p|] eqn:Hc; [|done].
      rewrite foldl_cache_set in H. apply lookup_union_None in H as [_ H].
      congruence. }
  unfold Get. split; [|split].
  - intros id p. rewrite deliver_cache_fold. intros H.
    apply foldl_cache_set_lookup in H as [H|H]; [by left|right].
    by eapply elem_of_accepted.
  - rewrite deliver_cache_fold. apply Hfold.
  - rewrite <- !lookup_fmap, deliver_db_fold. apply Hfold.
Qed.

(** X11. Redelivery is safe: once a message was handled with the database
    answering, handling the same message again, whether the database
    answers then or not, leaves the store as the first handling left it. *)
Theorem handle_redelivery (env1 env2 : Env) (m : Msg) (s : Store) :
  fault env1 = None ->
  store_of (handle env2 m (store_of (handle env1 m s)))
  = store_of (handle env1 m s).
Proof.
  intros Hf. rewrite !handle_outcome. unfold outcome. rewrite Hf.
  destruct (minimalValidateOrder (Data m)) as [vErr|id]; [done|].
  unfold store_of at 2 3; simpl.
  destruct (fault env2); [done|]. unfold store_of; simpl.
  by rewrite insert_on_conflict_update_again, insert_insert_eq.
Qed.

Lemma handle_redelivery_witness :
  let m := mkMsg 1 (js "{'order_uid':'A1','delivery':{},'payment':{},'items':[1]}") in
  store_of (handle (mkEnv 20 None) m (store_of (handle (mkEnv 10 None) m (mkStore ∅ ∅))))
  = store_of (handle (mkEnv 10 None) m (mkStore ∅ ∅)).
Proof. intros m. apply handle_redelivery. reflexivity. Defined.

(** X12. The acknowledgments of a run are those of the messages that were
    dropped or stored, one each and in the order the messages came; a
    message whose upsert failed is not acknowledged. *)
Theorem deliver_acks (ms : list (Env * Msg)) (s : Store) :
  acks (trace (deliver ms s)) = settled ms.
Proof.
  revert s. induction ms as [|[env m] ms IH]; intros s; [done|].
  rewrite trace_deliver_cons. unfold acks. rewrite omap_app.
  fold (acks (trace (deliver ms (store_of (handle env m s))))).
  rewrite IH, handle_outcome. unfold settled; simpl.
  by destruct (outcome env m).
Qed.

(** X13. No run deletes anything: a row the table has stays, with the
    created_at it had, and an identifier the cache has an entry for keeps
    one. *)
Theorem deliver_keeps_rows (ms : list (Env * Msg)) (s : Store) :
  let s' := store_of (deliver ms s) in
  (forall id r, db s !! id = Some r ->
     exists r', db s' !! id = Some r' /\ created_at r' = created_at r) /\
  (forall id, is_Some (Get s id) -> is_Some (Get s' id)).
Proof.
  intros s'. subst s'. split.
  - revert s. induction ms as [|[env m] ms IH]; intros s id r Hr; [by exists r|].
    rewrite store_of_deliver_cons.
    destruct (handle_rows_stay env m s id r Hr) as (r1 & Hr1 & Hc1).
    destruct (IH _ id r1 Hr1) as (r' & Hr' & Hc'). exists r'. split; [done|].
    congruence.
  - intros id [p Hp]. unfold Get in *. rewrite deliver_cache_fold, foldl_cache_set.
    destruct ((list_to_map (reverse (accepted ms)) : gmap string string) !! id)
      as [p'|] eqn:H.
    + exists p'. by apply lookup_union_Some_l.
    + exists p. rewrite lookup_union_r by done. done.
Qed.

Section handlers_more.

Lemma CutPrefix_Some (s p rest : string) :
  strings.CutPrefix s p = Some rest -> s = String.append p rest.
Proof.
  revert s. induction p as [|c p IH]; intros s; simpl.
  - by intros [= ->].
  - destruct s as [|d s]; [done|].
    destruct (Ascii.eqb_spec c d) as [->|]; [|done].
    intros H. by rewrite (IH _ H).
Qed.

(** The answer of [http.Error]. *)
Lemma Error_NewRecorder {T : Type} (msg : string) (code : Z) :
  http.Error (T := T) msg code http.NewRecorder =
    http.mkResponse
      (<["X-Content-Type-Options" := "nosniff"]>
         (<["Content-Type" := "text/plain; charset=utf-8"]> ∅))
      (Some code) [inl (String.append msg http.newline)].
Proof. done. Qed.

(** The handler on any path: what it takes for the identifier is what
    follows the prefix, when the path starts with it. *)
Lemma apiHandler_cases {T : Type} (store : Store) (r : http.Request) :
  let w : http.ResponseWriter T := apiHandler store r http.NewRecorder in
  (w = http.Error "missing id" http.StatusBadRequest http.NewRecorder /\
   (http.Path r = api_path "" \/ forall ident, http.Path r <> api_path ident)) \/
  (exists ident, http.Path r = api_path ident /\ ident <> "" /\
     w = match Get store ident with
         | Some payload =>
             http.Write payload
               (http.WriteHeader http.StatusOK
                  (http.Set_ "Content-Type" "application/json; charset=utf-8"
                             http.NewRecorder))
         | None => http.Error "not found" http.StatusNotFound http.NewRecorder
         end).
Proof.
  intros w. subst w. destruct r as [path query].
  destruct (strings.CutPrefix path "/api/orders/") as [ident|] eqn:Hcut.
  - apply CutPrefix_Some in Hcut as ->. fold (api_path ident).
    unfold api_path. rewrite apiHandler_path.
    destruct (decide (ident = "")) as [->|Hne].
    + left. split; [done|by left].
    + right. exists ident. rewrite bool_decide_eq_false_2 by done. done.
  - left. unfold apiHandler, strings.TrimPrefix. cbn [http.Path]. rewrite Hcut.
    rewrite (bool_decide_eq_true_2 (path = path)) by done.
    rewrite orb_true_r. split; [done|]. right. intros ident ->.
    unfold api_path in Hcut. by rewrite CutPrefix_append in Hcut.
Qed.

End handlers_more.

(** X14. The JSON endpoint on every request, whatever its path: a path that
    does not start with /api/orders/ is answered 400 like the empty
    identifier; the 400 and 404 answers are plain text with the nosniff
    header; the status is 200, 400 or 404, and it is 200 only when the path
    is /api/orders/ followed by an identifier the cache has, with the cached
    payload and nothing else as the body. *)
Theorem apiHandler_total (store : Store) (r : http.Request) :
  let w : http.ResponseWriter Page := apiHandler store r http.NewRecorder in
  ((forall ident, http.Path r <> api_path ident) ->
     http.status w = 400%Z /\
     http.Body w = [inl (String.append "missing id" http.newline)]) /\
  (http.status w = 200%Z \/ http.status w = 400%Z \/ http.status w = 404%Z) /\
  (http.status w <> 200%Z ->
     http.Header w !! "Content-Type" = Some "text/plain; charset=utf-8" /\
     http.Header w !! "X-Content-Type-Options" = Some "nosniff") /\
  (http.status w = 200%Z ->
     exists ident payload, http.Path r = api_path ident /\ ident <> "" /\
       Get store ident = Some payload /\ http.Body w = [inl payload]).
Proof.
  intros w. subst w.
  destruct (apiHandler_cases (T := Page) store r)
    as [[-> Hpath]|(ident & Hpath & Hne & ->)].
  - rewrite Error_NewRecorder. repeat split; try done.
    + right; by left.
  - destruct (Get store ident) as [payload|] eqn:Hget.
    + split; [intros H; by destruct (H ident)|]. split; [by left|].
      split; [done|]. intros _. by exists ident, payload.
    + rewrite Error_NewRecorder.
      split; [intros H; by destruct (H ident)|]. split; [by right; right|].
      split; [done|]. done.
Qed.

(** X15. The two endpoints read the same cache entry: for an identifier
    that is not empty, the page shows an order exactly when the JSON
    endpoint answers 200, and the raw payload on the page is the body of
    that answer; the page shows the not-found message exactly when the JSON
    endpoint answers 404. *)
Theorem handlers_agree (store : Store) (r : http.Request) (id : string)
    (query : gmap string (list string)) :
  url.Get (http.Query r) "id" = id ->
  id <> "" ->
  let wa : http.ResponseWriter Page :=
    apiHandler store (http.mkRequest (api_path id) query) http.NewRecorder in
  let wp := pageHandler store r http.NewRecorder in
  (exists payload o,
     http.status wa = 200%Z /\ http.Body wa = [inl payload] /\
     http.Body wp = [inr (mkPage id (OrderSection o payload))]) \/
  (http.status wa = 404%Z /\
   http.Body wp = [inr (mkPage id (NotFoundSection id))]).
Proof.
  intros Hq Hne wa wp. subst wa wp. unfold api_path.
  rewrite apiHandler_path, pageHandler_page, Hq.
  rewrite !bool_decide_eq_false_2 by done.
  destruct (Get store id) as [payload|].
  - left. by eexists _, _.
  - by right.
Qed.

Lemma handlers_agree_witness :
  let store := mkStore ∅ {["A1" := "{}"]} in
  let wa : http.ResponseWriter Page :=
    apiHandler store (http.mkRequest (api_path "A1") ∅) http.NewRecorder in
  let wp := pageHandler store (http.mkRequest "/orders" {["id" := ["A1"]]})
              http.NewRecorder in
  (exists payload o,
     http.status wa = 200%Z /\ http.Body wa = [inl payload] /\
     http.Body wp = [inr (mkPage "A1" (OrderSection o payload))]) \/
  (http.status wa = 404%Z /\
   http.Body wp = [inr (mkPage "A1" (NotFoundSection "A1"))]).
Proof.
  intros store. apply (handlers_agree store
    (http.mkRequest "/orders" {["id" := ["A1"]]}) "A1" ∅).
  - reflexivity.
  - discriminate.
Defined.

(** X16. From the channel to the reader: once a message has validated and
    its upsert has gone through, the JSON endpoint answers a request for the
    identifier the validator returned with 200 and the bytes of the message
    as they came, and the page shows those bytes as the raw payload. *)
Theorem stored_message_is_served (env : Env) (m : Msg) (s : Store)
    (id : string) (r : http.Request) (query : gmap string (list string)) :
  minimalValidateOrder (Data m) = inr id ->
  fault env = None ->
  url.Get (http.Query r) "id" = id ->
  let s' := store_of (handle env m s) in
  let wa : http.ResponseWriter Page :=
    apiHandler s' (http.mkRequest (api_path id) query) http.NewRecorder in
  http.status wa = 200%Z /\ http.Body wa = [inl (Data m)] /\
  exists o, http.Body (pageHandler s' r http.NewRecorder)
            = [inr (mkPage id (OrderSection o (Data m)))].
Proof.
  intros Hv Hf Hq s' wa. subst s' wa.
  pose proof (minimalValidateOrder_id_nonempty _ _ Hv) as Hne.
  unfold api_path. rewrite apiHandler_path, pageHandler_page, Hq.
  rewrite !bool_decide_eq_false_2 by done.
  rewrite handle_outcome. unfold outcome. rewrite Hv, Hf.
  unfold store_of, Get; cbn [fst snd cache]. rewrite lookup_insert_eq.
  split; [done|]. split; [done|]. by eexists.
Qed.

Lemma stored_message_is_served_witness :
  let m := mkMsg 1 (js "{'order_uid':'A1','delivery':{},'payment':{},'items':[1]}") in
  let s' := store_of (handle (mkEnv 10 None) m (mkStore ∅ ∅)) in
  let wa : http.ResponseWriter Page :=
    apiHandler s' (http.mkRequest (api_path "A1") ∅) http.NewRecorder in
  http.status wa = 200%Z /\ http.Body wa = [inl (Data m)] /\
  exists o, http.Body (pageHandler s' (http.mkRequest "/orders" {["id" := ["A1"]]})
                         http.NewRecorder)
            = [inr (mkPage "A1" (OrderSection o (Data m)))].
Proof.
  intros m. apply (stored_message_is_served (mkEnv 10 None) m (mkStore ∅ ∅) "A1"
    (http.mkRequest "/orders" {["id" := ["A1"]]}) ∅).
  - vm_compute. reflexivity.
  - reflexivity.
  - reflexivity.
Defined.

Section decode_keeps.

Context {S B : Type} (proj : S -> B).

(** A field that is written without touching [proj] is decoded without
    touching it. *)
Lemma field_keeps {A : Type} (get : S -> A) (set : A -> S -> S)
    (dec : json.decoder A) :
  (forall a s, proj (set a s) = proj s) ->
  forall j s, proj (fst (json.field get set dec j s)) = proj s.
Proof.
  intros Hset j s. unfold json.field. destruct (dec j (get s)) as [a e].
  apply Hset.
Qed.

Lemma decode_member_keeps (fields : list (string * json.decoder S)) (k : string) :
  (forall dec, json.field_of fields k = Some dec ->
     forall j s, proj (fst (dec j s)) = proj s) ->
  forall acc v, proj (fst (json.decode_member fields acc (k, v))) = proj (fst acc).
Proof.
  intros Hdec acc v. unfold json.decode_member; cbn [fst snd].
  destruct (json.field_of fields k) as [dec|]; [|done].
  specialize (Hdec dec eq_refl v (fst acc)).
  destruct (dec v (fst acc)) as [s' e']. exact Hdec.
Qed.

Lemma decode_struct_keeps (ty : string) (fields : list (string * json.decoder S))
    (ms : list (string * json.value)) (cur : S) :
  Forall (fun m => forall dec, json.field_of fields (fst m) = Some dec ->
                   forall j s, proj (fst (dec j s)) = proj s) ms ->
  proj (fst (json.decode_struct ty fields (json.Object ms) cur)) = proj cur.
Proof.
  unfold json.decode_struct. generalize (None : option error).
  revert cur. induction ms as [|[k v] ms IH]; intros cur e Hms; [done|].
  apply Forall_cons in Hms as [Hk Hms]. cbn [fold_left].
  pose proof (decode_member_keeps fields k Hk (cur, e) v) as Hstep.
  destruct (json.decode_member fields (cur, e) (k, v)) as [cur' e'].
  rewrite IH by done. exact Hstep.
Qed.

End decode_keeps.

Section order_uid.

Local Arguments json.equalFold : simpl never.

(** A key other than OrderUID is stored, if anywhere, in another field of
    [Order]. *)
Lemma Order_member_keeps_OrderUID (ms : list (string * json.value)) (cur : Order.t) :
  Forall (fun m => json.equalFold "OrderUID" (fst m) = false) ms ->
  Order.OrderUID (fst (Order.decode (json.Object ms) cur)) = Order.OrderUID cur.
Proof.
  intros Hms. unfold Order.decode. apply decode_struct_keeps.
  eapply Forall_impl; [exact Hms|]. clear. intros [k v] Hk dec; cbn [fst] in *.
  unfold json.field_of. cbn [find fst snd].
  destruct (String.eqb_spec "OrderUID" k) as [<-|_]; [by vm_compute in Hk|].
  repeat match goal with
  | |- context [String.eqb ?n k] =>
      destruct (String.eqb n k);
      [cbv iota; cbn [snd]; intros [= <-]; apply field_keeps; intros a [];
       reflexivity|]
  end.
  rewrite Hk.
  repeat match goal with
  | |- context [json.equalFold ?n k] =>
      destruct (json.equalFold n k);
      [cbv iota; cbn [snd]; intros [= <-]; apply field_keeps; intros a [];
       reflexivity|]
  end.
  done.
Qed.

End order_uid.

(** X17. The order on the page has no OrderUID: [Order] gives its OrderUID
    field no json tag, so the order_uid of a payload is not stored in it,
    and the page shows an order with an empty OrderUID for every cached
    payload that is an object with no member named OrderUID (in any
    case). *)
Theorem pageHandler_OrderUID_empty (store : Store) (r : http.Request)
    (id payload : string) (ms : list (string * json.value)) :
  url.Get (http.Query r) "id" = id ->
  id <> "" ->
  Get store id = Some payload ->
  json.parse payload = Some (json.Object ms) ->
  Forall (fun m => json.equalFold "OrderUID" (fst m) = false) ms ->
  exists o, http.Body (pageHandler store r http.NewRecorder)
            = [inr (mkPage id (OrderSection o payload))] /\
            Order.OrderUID o = "".
Proof.
  intros Hq Hne Hget Hp Hms. rewrite pageHandler_page, Hq.
  rewrite bool_decide_eq_false_2 by done. rewrite Hget.
  eexists. split; [reflexivity|].
  unfold json.Unmarshal. rewrite Hp. by rewrite Order_member_keeps_OrderUID.
Qed.

Lemma pageHandler_OrderUID_empty_witness :
  let payload := js "{'order_uid':'b563','delivery':{'name':'Ivan'},'payment':{},'items':[{'name':'Item'}]}" in
  let store := mkStore ∅ {["b563" := payload]} in
  exists o, http.Body (pageHandler store (http.mkRequest "/orders" {["id" := ["b563"]]})
                         http.NewRecorder)
            = [inr (mkPage "b563" (OrderSection o payload))] /\
            Order.OrderUID o = "".
Proof.
  intros payload store.
  apply (pageHandler_OrderUID_empty store
           (http.mkRequest "/orders" {["id" := ["b563"]]}) "b563" payload
           [("order_uid", json.String_ "b563");
            ("delivery", json.Object [("name", json.String_ "Ivan")]);
            ("payment", json.Object []);
            ("items", json.Array [json.Object [("name", json.String_ "Item")]])]).
  - reflexivity.
  - discriminate.
  - reflexivity.
  - vm_compute. reflexivity.
  - repeat (constructor; [vm_compute; reflexivity|]). constructor.
Defined.

(** X18. The settings [main] reads: a variable that is not set, or is set
    to the empty string, gives the default, any other value is taken as it
    is; so with a default that is not empty the setting is never empty, and
    none of the seven settings of the service ever is. *)
Theorem mustEnv_settings (environ : gmap string string) :
  (forall key def,
     mustEnv environ key def =
       match environ !! key with
       | Some v => if decide (v = "") then def else v
       | None => def
       end) /\
  (forall key def, def <> "" -> mustEnv environ key def <> "") /\
  addr (config environ) <> "" /\ dsn (config environ) <> "" /\
  natsURL (config environ) <> "" /\ clusterID (config environ) <> "" /\
  clientID (config environ) <> "" /\ channel (config environ) <> "" /\
  durable (config environ) <> "".
Proof.
  assert (Hne : forall key def, def <> "" -> mustEnv environ key def <> "").
  { intros key def Hdef. unfold mustEnv, os.Getenv.
    destruct (environ !! key) as [v|]; simpl.
    - destruct (decide (v = "")) as [->|Hv]; [done|].
      by rewrite bool_decide_eq_false_2.
    - done. }
  split; [|split; [done|]].
  - intros key def. unfold mustEnv, os.Getenv.
    destruct (environ !! key) as [v|]; simpl; [|done].
    destruct (decide (v = "")) as [->|Hv]; [done|].
    by rewrite bool_decide_eq_false_2.
  - unfold config; simpl. repeat split; by apply Hne.
Qed.

Section validator_more.

Implicit Types (v : json.value) (vs : list json.value)
  (ms : list (string * json.value)).

Lemma fold_left_snoc {A B : Type} (f : A -> B -> A) (l : list B) (x : B) (a : A) :
  fold_left f (l ++ [x]) a = f (fold_left f l a) x.
Proof. by rewrite fold_left_app. Qed.

(** A string field that is given several values ends with the last string
    among them. *)
Lemma fold_store_uid vs (cur : string) :
  fold_left store_uid vs cur = default cur (last (strings_of vs)).
Proof.
  induction vs as [|v vs IH] using rev_ind; [done|].
  rewrite fold_left_snoc, IH. unfold strings_of. rewrite omap_app.
  unfold store_uid. destruct v; simpl; rewrite ?app_nil_r; try done.
  by rewrite last_snoc.
Qed.

(** A pointer field that is given several values ends with the last of
    them, nil if that is [null]. *)
Lemma fold_store_ptr vs (cur : option json.RawMessage) :
  fold_left store_ptr vs cur =
    match last vs with
    | None => cur
    | Some json.Null => None
    | Some v => Some v
    end.
Proof.
  destruct vs as [|v vs _] using rev_ind; [done|].
  rewrite fold_left_snoc, last_snoc. unfold store_ptr. by destruct v.
Qed.

(** A slice that is given several arrays or nulls has the length of the
    last of them. *)
Lemma fold_store_items vs (cur : json.slice json.RawMessage) :
  Forall array_or_null vs ->
  json.len (fold_left store_items vs cur) =
    match last vs with
    | None => json.len cur
    | Some (json.Array js) => length js
    | Some _ => 0%nat
    end.
Proof.
  destruct vs as [|v vs _] using rev_ind; [done|].
  intros Hvs. apply Forall_app in Hvs as [_ Hv]. apply Forall_cons in Hv as [Hv _].
  rewrite fold_left_snoc, last_snoc.
  destruct v; try done. apply len_store_items_Array.
Qed.

Lemma minimalValidateOrder_parse_eq (p1 p2 : string) :
  json.parse p1 = json.parse p2 ->
  minimalValidateOrder p1 = minimalValidateOrder p2.
Proof.
  intros H. unfold minimalValidateOrder, json.Valid, json.Unmarshal. by rewrite H.
Qed.

(** A member whose key names no field of [tmp] is skipped. *)
Lemma decode_tmp_skip ms1 ms2 k v :
  names k false false false false ->
  tmp.decode (json.Object (ms1 ++ (k, v) :: ms2)) tmp.zero
  = tmp.decode (json.Object (ms1 ++ ms2)) tmp.zero.
Proof.
  intros (H1 & H2 & H3 & H4). rewrite !decode_tmp_Object, !fold_left_app.
  cbn [fold_left].
  assert (Hskip : forall acc, json.decode_member tmp.fields acc (k, v) = acc).
  { intros acc. unfold json.decode_member. cbn [fst snd].
    by rewrite field_of_tmp, H1, H2, H3, H4. }
  by rewrite Hskip.
Qed.

End validator_more.

(** X19. The validator on an object, however often a name is given: it
    returns an identifier exactly when no order_uid is of a type other than
    string or null and no items of a type other than array or null, the last
    string given for order_uid is that identifier and is not empty, the last
    delivery and the last payment are not null, and the last items are an
    array with at least one element.  An earlier value of a name does not
    count, except that one of the wrong type fails the payload. *)
Theorem minimalValidateOrder_last_wins (payload : string)
    (ms : list (string * json.value)) (uid : string) :
  json.parse payload = Some (json.Object ms) ->
  minimalValidateOrder payload = inr uid <->
    Forall string_or_null (section_values "order_uid" ms) /\
    Forall array_or_null (section_values "items" ms) /\
    last (strings_of (section_values "order_uid" ms)) = Some uid /\ uid <> "" /\
    (exists v, last (section_values "delivery" ms) = Some v /\ v <> json.Null) /\
    (exists v, last (section_values "payment" ms) = Some v /\ v <> json.Null) /\
    (exists e es, last (section_values "items" ms) = Some (json.Array (e :: es))).
Proof.
  intros Hp. rewrite (minimalValidateOrder_parsed _ _ Hp).
  pose proof (decode_tmp_OrderUID ms) as HU.
  pose proof (decode_tmp_Delivery ms) as HD.
  pose proof (decode_tmp_Payment ms) as HP.
  pose proof (decode_tmp_Items ms) as HI.
  pose proof (decode_tmp_err_None ms) as HE.
  destruct (tmp.decode (json.Object ms) tmp.zero) as [t err]. simpl in *.
  rewrite fold_store_uid in HU. rewrite fold_store_ptr in HD, HP.
  destruct err as [e|].
  { split; [done|]. intros (Hu & Hi & _). discriminate (proj2 HE (conj Hu Hi)). }
  destruct (proj1 HE eq_refl) as [Hu Hi].
  pose proof (fold_store_items _ json.nil Hi) as HL. rewrite <- HI in HL.
  assert (HDn : tmp.Delivery t <> None <->
          exists v, last (section_values "delivery" ms) = Some v /\ v <> json.Null).
  { rewrite HD. destruct (last (section_values "delivery" ms)) as [[]|];
      naive_solver. }
  assert (HPn : tmp.Payment t <> None <->
          exists v, last (section_values "payment" ms) = Some v /\ v <> json.Null).
  { rewrite HP. destruct (last (section_values "payment" ms)) as [[]|];
      naive_solver. }
  assert (HIn : json.len (tmp.Items t) <> 0%nat <->
          exists e es, last (section_values "items" ms)
                       = Some (json.Array (e :: es))).
  { rewrite HL. destruct (last (section_values "items" ms)) as [[| | | |[|e es]|]|];
      simpl; naive_solver. }
  assert (HUn : forall u, tmp.OrderUID t = u /\ u <> "" <->
          last (strings_of (section_values "order_uid" ms)) = Some u /\ u <> "").
  { intros u. rewrite HU.
    destruct (last (strings_of (section_values "order_uid" ms))); simpl;
      naive_solver. }
  rewrite <- HDn, <- HPn, <- HIn.
  destruct (decide (tmp.OrderUID t = "")) as [Hempty|Hne].
  { split; [done|]. intros (_ & _ & Hlast & Hne & _).
    destruct (proj2 (HUn uid) (conj Hlast Hne)) as [<- _]. done. }
  destruct (decide (tmp.Delivery t = None)) as [Hd|Hd].
  { rewrite (bool_decide_eq_true_2 _ Hd). simpl. naive_solver. }
  rewrite (bool_decide_eq_false_2 _ Hd).
  destruct (decide (tmp.Payment t = None)) as [Hpay|Hpay].
  { rewrite (bool_decide_eq_true_2 _ Hpay). simpl. naive_solver. }
  rewrite (bool_decide_eq_false_2 _ Hpay).
  destruct (decide (json.len (tmp.Items t) = 0%nat)) as [Hl|Hl].
  { rewrite (bool_decide_eq_true_2 _ Hl). simpl. naive_solver. }
  rewrite (bool_decide_eq_false_2 _ Hl). simpl. split.
  - intros [= <-]. repeat split; try done. by apply HUn.
  - intros (_ & _ & Hlast & Hne' & _).
    destruct (proj2 (HUn uid) (conj Hlast Hne')) as [<- _]. done.
Qed.

Lemma minimalValidateOrder_last_wins_witness :
  let payload := js "{'order_uid':'A0','items':[],'order_uid':'A1','delivery':null,'delivery':{},'payment':{},'items':[1]}" in
  let ms := [("order_uid", json.String_ "A0"); ("items", json.Array []);
             ("order_uid", json.String_ "A1"); ("delivery", json.Null);
             ("delivery", json.Object []); ("payment", json.Object []);
             ("items", json.Array [json.Number "1"])] in
  minimalValidateOrder payload = inr "A1" <->
    Forall string_or_null (section_values "order_uid" ms) /\
    Forall array_or_null (section_values "items" ms) /\
    last (strings_of (section_values "order_uid" ms)) = Some "A1" /\ "A1" <> "" /\
    (exists v, last (section_values "delivery" ms) = Some v /\ v <> json.Null) /\
    (exists v, last (section_values "payment" ms) = Some v /\ v <> json.Null) /\
    (exists e es, last (section_values "items" ms) = Some (json.Array (e :: es))).
Proof.
  intros payload ms. apply minimalValidateOrder_last_wins.
  vm_compute. reflexivity.
Defined.

(** X20. A payload that is well-formed JSON and no object with members:
    [null] and the empty object fail with "missing order_uid"; a boolean, a
    number, a string or an array fails with the type error of
    [json.Unmarshal] for its kind. *)
Theorem minimalValidateOrder_not_an_order (payload : string) (j : json.value) :
  json.parse payload = Some j ->
  (forall m ms, j <> json.Object (m :: ms)) ->
  minimalValidateOrder payload =
    inl (match j with
         | json.Null | json.Object _ => errorString "missing order_uid"
         | _ => UnmarshalTypeError (json.kind j) "struct"
         end).
Proof.
  intros Hp Hj. rewrite (minimalValidateOrder_parsed _ _ Hp).
  destruct j as [| | | | |[|m ms]]; try done. by destruct (Hj m ms).
Qed.

Lemma minimalValidateOrder_not_an_order_witness :
  minimalValidateOrder "[1, 2]" = inl (UnmarshalTypeError "array" "struct").
Proof.
  apply (minimalValidateOrder_not_an_order "[1, 2]"
           (json.Array [json.Number "1"; json.Number "2"])).
  - vm_compute. reflexivity.
  - discriminate.
Defined.

(** X21. Members the validator has no use for do not matter: two payloads
    that differ by one member whose key is none of order_uid, delivery,
    payment and items (in any case) validate alike. *)
Theorem minimalValidateOrder_ignores_member (p1 p2 : string)
    (ms1 ms2 : list (string * json.value)) (k : string) (v : json.value) :
  json.parse p1 = Some (json.Object (ms1 ++ (k, v) :: ms2)) ->
  json.parse p2 = Some (json.Object (ms1 ++ ms2)) ->
  names k false false false false ->
  minimalValidateOrder p1 = minimalValidateOrder p2.
Proof.
  intros H1 H2 Hk.
  rewrite (minimalValidateOrder_parsed _ _ H1), (minimalValidateOrder_parsed _ _ H2).
  by rewrite decode_tmp_skip.
Qed.

Lemma minimalValidateOrder_ignores_member_witness :
  minimalValidateOrder
    (js "{'order_uid':'A1','locale':[1],'delivery':{},'payment':{},'items':[1]}")
  = minimalValidateOrder
    (js "{'order_uid':'A1','delivery':{},'payment':{},'items':[1]}").
Proof.
  apply (minimalValidateOrder_ignores_member _ _
           [("order_uid", json.String_ "A1")]
           [("delivery", json.Object []); ("payment", json.Object []);
            ("items", json.Array [json.Number "1"])]
           "locale" (json.Array [json.Number "1"])).
  - vm_compute. reflexivity.
  - vm_compute. reflexivity.
  - vm_compute. repeat split.
Defined.

(** * White space around a document *)

Section whitespace.

Local Open Scope char_scope.

Implicit Types (s : json.scanner) (c : ascii) (ps : list json.frame)
  (t : option json.value).

Ltac bits c := destruct c as [[] [] [] [] [] [] [] []].

Lemma isSpace_cases c :
  json.isSpace c = true -> c = " " \/ c = "009" \/ c = "010" \/ c = "013".
Proof. bits c; (discriminate || intros _; auto). Qed.

Lemma complete_clean v ps t s' : json.complete v ps t = Some s' -> lit_clean s'.
Proof.
  unfold json.complete. destruct ps as [|[done|done [k|]] ps'].
  - by intros [= <-].
  - by intros [= <-].
  - by intros [= <-].
  - destruct v; try done. by intros [= <-].
Qed.

Lemma popParseState_clean v ps t s' :
  json.popParseState v ps t = Some s' -> lit_clean s'.
Proof.
  unfold json.popParseState. destruct (json.complete v ps t); [|done].
  intros [= <-]. by destruct ps.
Qed.

Lemma do_stateEndValue_clean ps t c s' :
  json.do_stateEndValue ps t c = Some s' -> lit_clean s'.
Proof.
  unfold json.do_stateEndValue, json.do_stateEndTop.
  destruct ps as [|[done|done [k|]] ps']; destruct (json.isSpace c);
    try (by intros [= <-]); repeat case_decide;
    try done; try (by intros [= <-]); apply popParseState_clean.
Qed.

Lemma end_number_clean acc ps t c s' :
  json.end_number acc ps t c = Some s' -> lit_clean s'.
Proof.
  unfold json.end_number. destruct (json.complete _ ps t); [|done].
  apply do_stateEndValue_clean.
Qed.

Lemma do_stateBeginValue_clean ps t c s' :
  json.do_stateBeginValue ps t c = Some s' -> lit_clean s'.
Proof.
  unfold json.do_stateBeginValue, json.pushParseState.
  destruct (json.isSpace c); [by intros [= <-]|].
  bits c; cbv iota; try done; try (by intros [= <-]);
    try (destruct (_ <=? _)%N; [by intros [= <-]|done]);
    try (destruct (json.isDigit _); [by intros [= <-]|done]);
    intros [= <-]; unfold lit_clean; simpl; repeat constructor.
Qed.

Lemma do_state0_clean acc ps t c s' :
  json.do_state0 acc ps t c = Some s' -> lit_clean s'.
Proof.
  unfold json.do_state0.
  bits c; cbv iota; try (by intros [= <-]); apply end_number_clean.
Qed.

Lemma scan_clean s c s' : lit_clean s -> json.scan s c = Some s' -> lit_clean s'.
Proof.
  destruct s as [step ps t]. unfold json.scan. cbn [json.sc_step json.parseState json.top].
  intros Hs. destruct step.
  - apply do_stateBeginValue_clean.
  - destruct (json.isSpace c); [by intros [= <-]|].
    case_decide; [apply do_stateEndValue_clean|apply do_stateBeginValue_clean].
  - destruct (json.isSpace c); [by intros [= <-]|].
    case_decide; [apply do_stateEndValue_clean|].
    unfold json.do_stateBeginString. destruct (json.isSpace c); [by intros [= <-]|].
    case_decide; [by intros [= <-]|done].
  - unfold json.do_stateBeginString. destruct (json.isSpace c); [by intros [= <-]|].
    case_decide; [by intros [= <-]|done].
  - apply do_stateEndValue_clean.
  - unfold json.do_stateEndTop. destruct (json.isSpace c); [by intros [= <-]|done].
  - case_decide; [apply complete_clean|].
    case_decide; [by intros [= <-]|].
    destruct (_ <? _)%N; [done|by intros [= <-]].
  - bits c; cbv iota; try done; by intros [= <-].
  - destruct (json.isHex c); [|done]. destruct todo as [|[|n]]; by intros [= <-].
  - case_decide; [by intros [= <-]|].
    destruct (json.isDigit c); [by intros [= <-]|done].
  - apply do_state0_clean.
  - destruct (json.isDigit c); [by intros [= <-]|apply do_state0_clean].
  - destruct (json.isDigit c); [by intros [= <-]|done].
  - destruct (json.isDigit c); [by intros [= <-]|].
    destruct (_ || _); [by intros [= <-]|apply end_number_clean].
  - destruct (_ || _); [by intros [= <-]|].
    unfold json.do_stateESign. destruct (json.isDigit c); [by intros [= <-]|done].
  - unfold json.do_stateESign. destruct (json.isDigit c); [by intros [= <-]|done].
  - destruct (json.isDigit c); [by intros [= <-]|apply end_number_clean].
  - destruct todo as [|x [|y todo']]; [done| |].
    + case_decide; [apply complete_clean|done].
    + case_decide; [|done]. intros [= <-]. unfold lit_clean in *; simpl in *.
      by apply Forall_cons in Hs as [_ Hs].
Qed.

Lemma scan_all_clean l s s' :
  lit_clean s -> json.scan_all s l = Some s' -> lit_clean s'.
Proof.
  revert s. induction l as [|c l IH]; intros s Hs; simpl.
  - by intros [= <-].
  - destruct (json.scan s c) as [s1|] eqn:H1; [|done].
    apply IH. by eapply scan_clean.
Qed.


Lemma eof_after_space s c :
  lit_clean s -> json.isSpace c = true ->
  match json.scan s c with Some s' => json.eof s' | None => None end
  = json.eof s.
Proof.
  intros Hs Hc. apply isSpace_cases in Hc. destruct s as [step ps t].
  destruct step;
    try (destruct Hc as [-> | [-> | [-> | ->]]];
         destruct ps as [|[done|done [k|]] ps']; vm_compute; reflexivity).
  unfold lit_clean in Hs. simpl in Hs. unfold json.eof, json.scan, json.endTop.
  cbn [json.sc_step json.parseState json.top].
  destruct todo as [|x [|y todo']]; [done| |].
  - apply Forall_cons in Hs as [Hx _].
    destruct (decide (c = x)) as [->|_].
    { destruct Hc as [-> | [-> | [-> | ->]]]; discriminate Hx. }
    destruct (decide (" " = x)) as [<-|_]; [discriminate Hx|done].
  - apply Forall_cons in Hs as [Hx _].
    destruct (decide (c = x)) as [->|_].
    { destruct Hc as [-> | [-> | [-> | ->]]]; discriminate Hx. }
    destruct (decide (" " = x)) as [<-|_]; [discriminate Hx|done].
Qed.

Lemma scan_all_app l1 l2 s :
  json.scan_all s (l1 ++ l2)
  = match json.scan_all s l1 with
    | Some s' => json.scan_all s' l2
    | None => None
    end.
Proof.
  revert s. induction l1 as [|c l1 IH]; intros s; simpl; [done|].
  by destruct (json.scan s c).
Qed.

Lemma scan_all_leading l :
  Forall (fun c => json.isSpace c = true) l ->
  json.scan_all json.reset l = Some json.reset.
Proof.
  induction 1 as [|c l Hc _ IH]; simpl; [done|].
  unfold json.scan, json.reset at 1 2 3. cbn [json.sc_step json.parseState json.top].
  unfold json.do_stateBeginValue. by rewrite Hc.
Qed.

Lemma eof_trailing l s :
  lit_clean s -> Forall (fun c => json.isSpace c = true) l ->
  match json.scan_all s l with Some s' => json.eof s' | None => None end
  = json.eof s.
Proof.
  intros Hs Hl. revert s Hs. induction Hl as [|c l Hc _ IH]; intros s Hs; simpl; [done|].
  rewrite <- (eof_after_space s c Hs Hc).
  destruct (json.scan s c) as [s1|] eqn:H1; [|done].
  apply IH. by eapply scan_clean.
Qed.

Lemma list_ascii_of_string_append (a b : string) :
  list_ascii_of_string (String.append a b)
  = list_ascii_of_string a ++ list_ascii_of_string b.
Proof. induction a as [|c a IH]; simpl; [done|]. by rewrite IH. Qed.

Lemma parse_surrounding_space (pre post payload : string) :
  Forall (fun c => json.isSpace c = true) (list_ascii_of_string pre) ->
  Forall (fun c => json.isSpace c = true) (list_ascii_of_string post) ->
  json.parse (String.append pre (String.append payload post)) = json.parse payload.
Proof.
  intros Hpre Hpost. unfold json.parse.
  rewrite !list_ascii_of_string_append, scan_all_app, (scan_all_leading _ Hpre),
    scan_all_app.
  destruct (json.scan_all json.reset (list_ascii_of_string payload)) as [s|] eqn:Hs;
    [|done].
  apply eof_trailing; [|done].
  eapply scan_all_clean; [|exact Hs]. exact I.
Qed.

End whitespace.

(** X22. White space around a payload changes nothing for the validator:
    the payload between [pre] and [post], both made of spaces, tabs, line
    feeds and carriage returns only, is valid JSON exactly when the payload
    alone is, and is accepted under an identifier exactly when the payload
    alone is accepted under it. *)
Theorem minimalValidateOrder_surrounding_space (pre post payload : string) :
  Forall (fun c => json.isSpace c = true) (list_ascii_of_string pre) ->
  Forall (fun c => json.isSpace c = true) (list_ascii_of_string post) ->
  let padded := String.append pre (String.append payload post) in
  json.Valid padded = json.Valid payload
  /\ forall id, minimalValidateOrder padded = inr id
                <-> minimalValidateOrder payload = inr id.
Proof.
  intros Hpre Hpost padded.
  pose proof (parse_surrounding_space pre post payload Hpre Hpost) as H.
  fold padded in H. split.
  - unfold json.Valid. by rewrite H.
  - intros id. unfold minimalValidateOrder, json.Valid, json.Unmarshal.
    by rewrite H.
Qed.

Lemma minimalValidateOrder_surrounding_space_witness :
  minimalValidateOrder
    (String.append (String " " (String "010" EmptyString))
       (String.append
          (js "{'order_uid':'b563','delivery':{},'payment':{},'items':[{}]}")
          (String "009" (String "013" EmptyString))))
  = inr "b563".
Proof.
  apply (proj2 (minimalValidateOrder_surrounding_space
                  (String " " (String "010" EmptyString))
                  (String "009" (String "013" EmptyString))
                  (js "{'order_uid':'b563','delivery':{},'payment':{},'items':[{}]}")
                  ltac:(repeat constructor) ltac:(repeat constructor))).
  vm_compute. reflexivity.
Defined.
